(** * Boundary Waters route tracker: the route store and its persistence

    A shallow embedding of [src/components/BoundaryWatersMap.jsx]: the
    component state ([routes], [currentRoute], [isRecording],
    [selectedRoute]), its event handlers, and the two effects that read and
    write [localStorage].  The platform functions the component calls
    ([JSON.stringify], [JSON.parse], [Number::toString], template literals)
    are embedded after ECMA-262, since the persistence claims depend on them.

    Conventions.
    - A JavaScript string is a sequence of 16-bit code units: [text].
    - A JavaScript number is an IEEE double.  A finite non-zero double is
      represented by the decimal digits and the exponent that
      [Number::toString] is specified with (the shortest decimal that
      identifies the double); rounding of longer decimal literals to the
      nearest double is not modelled, only the overflow to [Infinity] and the
      underflow to zero.
    - Route ids are integers ([Z]): they start at 1 and grow by 1, and are
      exact as doubles below 2^53. *)

From Stdlib Require Import ZArith NArith Bool String Ascii Lia Sorted.
From Stdlib Require Import DecimalFacts DecimalPos DecimalN.
From Stdlib Require Import List.
Import ListNotations.
Open Scope Z_scope.

(* ================================================================== *)
(** * The platform *)

Module ECMAScript.

(** ** Strings *)

Definition code_unit := N.
Definition text := list code_unit.

(** A Rocq string literal read as code units (ASCII range). *)
Definition lit (s : string) : text :=
  map N_of_ascii (list_ascii_of_string s).

Definition text_eqb (a b : text) : bool :=
  if list_eq_dec N.eq_dec a b then true else false.

(** [",".join(parts)]. *)
Fixpoint join (sep : text) (parts : list text) : text :=
  match parts with
  | [] => []
  | [p] => p
  | p :: rest => p ++ sep ++ join sep rest
  end.

(** ** Numbers *)

Inductive number :=
| NaN
| Inf (neg : bool)
| Zero (neg : bool)
| Dec (neg : bool) (ds : list digits) (n : Z).
(** [Dec neg ds n] is [0.ds * 10^n], negated when [neg]: with [k := length ds]
    these are the [s], [k] and [n] of Number::toString. *)

Definition digit_unit (d : digits) : code_unit :=
  match d with
  | d0 => 48 | d1 => 49 | d2 => 50 | d3 => 51 | d4 => 52
  | d5 => 53 | d6 => 54 | d7 => 55 | d8 => 56 | d9 => 57
  end%N.

Definition unit_digit (c : code_unit) : option digits :=
  if (c =? 48)%N then Some d0 else if (c =? 49)%N then Some d1
  else if (c =? 50)%N then Some d2 else if (c =? 51)%N then Some d3
  else if (c =? 52)%N then Some d4 else if (c =? 53)%N then Some d5
  else if (c =? 54)%N then Some d6 else if (c =? 55)%N then Some d7
  else if (c =? 56)%N then Some d8 else if (c =? 57)%N then Some d9
  else None.

Definition digits_text (ds : list digits) : text := map digit_unit ds.

Definition zeros (n : nat) : list digits := repeat d0 n.

Definition digits_of_N (n : N) : list digits := to_list (N.to_uint n).
Definition digits_of_pos (p : positive) : list digits := to_list (Pos.to_uint p).
Definition digits_value (ds : list digits) : N := N.of_uint (of_list ds).

Definition is_d0 (d : digits) : bool :=
  match d with d0 => true | _ => false end.

(** Drop the zeros at the front of a digit sequence. *)
Fixpoint drop_zeros (ds : list digits) : list digits :=
  match ds with
  | d :: ds' => if is_d0 d then drop_zeros ds' else ds
  | [] => []
  end.

Definition strip_trailing_zeros (ds : list digits) : list digits :=
  rev (drop_zeros (rev ds)).

(** *** Number::toString(x, 10) *)

Definition ToString_finite (ds : list digits) (n : Z) : text :=
  let k := Z.of_nat (length ds) in
  if (-5 <=? n) && (n <=? 21) then
    if k <=? n then
      digits_text ds ++ digits_text (zeros (Z.to_nat (n - k)))
    else if 0 <? n then
      digits_text (firstn (Z.to_nat n) ds) ++ lit "."
        ++ digits_text (skipn (Z.to_nat n) ds)
    else
      lit "0." ++ digits_text (zeros (Z.to_nat (- n))) ++ digits_text ds
  else
    let e := n - 1 in
    (* [e] is not 0 here: its sign is the sign of [n] *)
    let exponentSign := if e <? 0 then lit "-" else lit "+" in
    let exponent := digits_text (digits_of_N (Z.abs_N e)) in
    match ds with
    | [] => []
    | [d] => digit_unit d :: lit "e" ++ exponentSign ++ exponent
    | d :: rest =>
        digit_unit d :: lit "." ++ digits_text rest
          ++ lit "e" ++ exponentSign ++ exponent
    end.

Definition NumberToString (x : number) : text :=
  match x with
  | NaN => lit "NaN"
  | Zero _ => lit "0"
  | Inf false => lit "Infinity"
  | Inf true => lit "-Infinity"
  | Dec false ds n => ToString_finite ds n
  | Dec true ds n => lit "-" ++ ToString_finite ds n
  end.

Definition is_finite (x : number) : bool :=
  match x with
  | NaN | Inf _ => false
  | _ => true
  end.

(** *** Integers as numbers *)

Definition number_of_pos (neg : bool) (p : positive) : number :=
  let ds := digits_of_pos p in
  Dec neg (strip_trailing_zeros ds) (Z.of_nat (length ds)).

Definition number_of_Z (z : Z) : number :=
  match z with
  | Z0 => Zero false
  | Zpos p => number_of_pos false p
  | Zneg p => number_of_pos true p
  end.

(** The integer a number denotes, when it is one and is not [-0]. *)
Definition Z_of_number (x : number) : option Z :=
  match x with
  | Zero false => Some 0
  | Dec neg ds n =>
      let k := Z.of_nat (length ds) in
      if k <=? n then
        let m := Z.of_N (digits_value (ds ++ zeros (Z.to_nat (n - k)))) in
        if m =? 0 then None else Some (if neg then - m else m)
      else None
  | _ => None
  end.

(** *** The range of doubles

    A decimal at or above [2^1024 - 2^970] rounds to [Infinity]; one at or
    below [2^-1075] rounds to zero. *)

Definition overflow_threshold : Z := 2 ^ 1024 - 2 ^ 970.

(** [0.ds * 10^n >= 2^1024 - 2^970], decided exactly; the threshold has 309
    integer digits. *)
Definition overflows (ds : list digits) (n : Z) : bool :=
  if 309 <? n then true
  else if n <? 309 then false
  else
    let k := Z.of_nat (length ds) in
    let m := Z.of_N (digits_value ds) in
    if k <=? 309 then overflow_threshold <=? m * 10 ^ (309 - k)
    else overflow_threshold * 10 ^ (k - 309) <=? m.

(** [0.ds * 10^n <= 2^-1075 = 5^1075 * 10^-1075], decided exactly. *)
Definition underflows (ds : list digits) (n : Z) : bool :=
  if n <? -323 then true
  else if -323 <? n then false
  else
    let k := Z.of_nat (length ds) in
    let m := Z.of_N (digits_value ds) in
    if k <=? 752 then m * 10 ^ (752 - k) <=? 5 ^ 1075
    else m <=? 5 ^ 1075 * 10 ^ (k - 752).

(** The number denoted by [0.ds * 10^n] for an arbitrary digit sequence. *)
Definition number_of_decimal (neg : bool) (ds : list digits) (n : Z) : number :=
  let sig := drop_zeros ds in
  let n' := n - Z.of_nat (length ds - length sig) in
  match strip_trailing_zeros sig with
  | [] => Zero neg
  | s =>
      if overflows s n' then Inf neg
      else if underflows s n' then Zero neg
      else Dec neg s n'
  end.

(** Digit sequences that neither start nor end with a zero. *)
Definition canonical (ds : list digits) : bool :=
  match ds with
  | [] => false
  | d :: _ => negb (is_d0 d) && negb (is_d0 (last ds d0))
  end.

(** The finite doubles other than [-0], as this model holds them: digit
    sequences without zeros at either end, inside the range of doubles. *)
Definition finite_double (x : number) : bool :=
  match x with
  | Zero false => true
  | Dec _ ds n =>
      canonical ds && negb (overflows ds n) && negb (underflows ds n)
  | _ => false
  end.

(** ** JSON *)

#[local] Unset Elimination Schemes.
Inductive value :=
| VNull
| VBool (b : bool)
| VNum (x : number)
| VStr (s : text)
| VArr (vs : list value)
| VObj (ps : list (text * value)).
#[local] Set Elimination Schemes.
(** The properties of an object are kept in the order in which
    [JSON.stringify] enumerates them. *)

(** *** JSON.stringify *)

Definition hex_unit (h : N) : code_unit :=
  (if h <? 10 then 48 + h else 87 + h)%N.

(** [\uXXXX] with lowercase hexadecimal digits. *)
Definition UnicodeEscape (c : code_unit) : text :=
  [92; 117; hex_unit (c / 4096 mod 16); hex_unit (c / 256 mod 16);
   hex_unit (c / 16 mod 16); hex_unit (c mod 16)]%N.

Definition is_leading_surrogate (c : code_unit) : bool :=
  ((55296 <=? c) && (c <=? 56319))%N.
Definition is_trailing_surrogate (c : code_unit) : bool :=
  ((56320 <=? c) && (c <=? 57343))%N.

Definition escape_unit (c : code_unit) : text :=
  (if c =? 8 then lit "\b"
   else if c =? 9 then lit "\t"
   else if c =? 10 then lit "\n"
   else if c =? 12 then lit "\f"
   else if c =? 13 then lit "\r"
   else if c =? 34 then [92; 34]
   else if c =? 92 then [92; 92]
   else if (c <? 32) || is_leading_surrogate c || is_trailing_surrogate c
        then UnicodeEscape c
   else [c])%N.

(** The body of QuoteJSONString: a surrogate pair is copied, a lone surrogate
    is escaped. *)
Fixpoint quote_units (s : text) : text :=
  match s with
  | [] => []
  | c :: s' =>
      match s' with
      | d :: s'' =>
          if is_leading_surrogate c && is_trailing_surrogate d
          then c :: d :: quote_units s''
          else escape_unit c ++ quote_units s'
      | [] => escape_unit c
      end
  end.

Definition QuoteJSONString (s : text) : text :=
  34%N :: quote_units s ++ [34%N].

(** SerializeJSONProperty without replacer and with an empty gap. *)
Fixpoint SerializeJSONProperty (v : value) : text :=
  match v with
  | VNull => lit "null"
  | VBool true => lit "true"
  | VBool false => lit "false"
  | VNum x => if is_finite x then NumberToString x else lit "null"
  | VStr s => QuoteJSONString s
  | VArr vs =>
      lit "[" ++ join (lit ",") (map SerializeJSONProperty vs) ++ lit "]"
  | VObj ps =>
      lit "{"
        ++ join (lit ",")
             (map (fun p => QuoteJSONString (fst p) ++ lit ":"
                              ++ SerializeJSONProperty (snd p)) ps)
        ++ lit "}"
  end.

Definition JSON_stringify (v : value) : text := SerializeJSONProperty v.

(** *** JSON.parse: numeric literals *)

(** The longest prefix of digits, and what follows it. *)
Fixpoint span_digits (t : text) : list digits * text :=
  match t with
  | c :: t' =>
      match unit_digit c with
      | Some d => let (ds, r) := span_digits t' in (d :: ds, r)
      | None => ([], t)
      end
  | [] => ([], [])
  end.

(** JSONNumber: an optional minus sign; an integer part that is 0 or starts
    with a non-zero digit; an optional fraction (a point and one or more
    digits); an optional exponent (e or E, an optional sign, one or more
    digits). *)

Definition take_sign (t : text) : bool * text :=
  match t with
  | c :: r => if (c =? 45)%N then (true, r) else (false, t)
  | [] => (false, t)
  end.

Definition int_ok (int : list digits) : bool :=
  match int with
  | [] => false
  | [_] => true
  | d :: _ => negb (is_d0 d)
  end.

Definition nonempty {A} (l : list A) : bool :=
  match l with [] => false | _ => true end.

Definition take_fraction (t : text) : option (list digits * text) :=
  match t with
  | c :: r =>
      if (c =? 46)%N then
        let (fs, r') := span_digits r in
        if nonempty fs then Some (fs, r') else None
      else Some ([], t)
  | [] => Some ([], t)
  end.

Definition take_exponent (t : text) : option (Z * text) :=
  match t with
  | c :: r =>
      if (c =? 101)%N || (c =? 69)%N then
        let (eneg, r1) :=
          match r with
          | s :: r' =>
              if (s =? 45)%N then (true, r')
              else if (s =? 43)%N then (false, r')
              else (false, r)
          | [] => (false, r)
          end in
        let (es, r2) := span_digits r1 in
        let e := Z.of_N (digits_value es) in
        if nonempty es then Some (if eneg then - e else e, r2) else None
      else Some (0, t)
  | [] => Some (0, t)
  end.

Definition parse_unsigned (neg : bool) (t1 : text) : option number :=
  let (int, t2) := span_digits t1 in
  if int_ok int then
    match take_fraction t2 with
    | Some (frac, t3) =>
        match take_exponent t3 with
        | Some (exp, []) =>
            Some (number_of_decimal neg (int ++ frac)
                    (Z.of_nat (length int) + exp))
        | _ => None
        end
    | None => None
    end
  else None.

Definition parse_number_literal (t : text) : option number :=
  let (neg, t1) := take_sign t in
  parse_unsigned neg t1.

(** *** JSON.parse: tokens *)

Inductive token :=
| TLBracket | TRBracket | TLBrace | TRBrace | TComma | TColon
| TLit (v : value).

Inductive lex_mode :=
| InGap
| InWord (expected : text) (v : value)
| InString (acc : text)
| InEscape (acc : text)
| InUnicode (acc : text) (k : nat) (h : N)
| InNumber (acc : text)
| Failed.
(** [acc] holds what was read so far, last code unit first. *)

Record lexer := { mode : lex_mode; emitted : list token }.
(** [emitted] holds the tokens, last one first. *)

Definition is_number_unit (c : code_unit) : bool :=
  match unit_digit c with
  | Some _ => true
  | None => ((c =? 45) || (c =? 43) || (c =? 46) || (c =? 101) || (c =? 69))%N
  end.

Definition hex_value (c : code_unit) : option N :=
  (if (48 <=? c) && (c <=? 57) then Some (c - 48)
   else if (97 <=? c) && (c <=? 102) then Some (c - 87)
   else if (65 <=? c) && (c <=? 70) then Some (c - 55)
   else None)%N.

Definition emit (t : token) (out : list token) : lexer :=
  {| mode := InGap; emitted := t :: out |}.

Definition fail (out : list token) : lexer :=
  {| mode := Failed; emitted := out |}.

(** A code unit met between two tokens. *)
Definition gap_step (out : list token) (c : code_unit) : lexer :=
  (if (c =? 9) || (c =? 10) || (c =? 13) || (c =? 32)
   then {| mode := InGap; emitted := out |}
   else if c =? 91 then emit TLBracket out
   else if c =? 93 then emit TRBracket out
   else if c =? 123 then emit TLBrace out
   else if c =? 125 then emit TRBrace out
   else if c =? 44 then emit TComma out
   else if c =? 58 then emit TColon out
   else if c =? 34 then {| mode := InString []; emitted := out |}
   else if c =? 110 then {| mode := InWord (lit "ull") VNull; emitted := out |}
   else if c =? 116
        then {| mode := InWord (lit "rue") (VBool true); emitted := out |}
   else if c =? 102
        then {| mode := InWord (lit "alse") (VBool false); emitted := out |}
   else if (c =? 45) || (match unit_digit c with Some _ => true | None => false end)
        then {| mode := InNumber [c]; emitted := out |}
   else fail out)%N.

Definition unescape (c : code_unit) : option code_unit :=
  (if c =? 34 then Some 34
   else if c =? 47 then Some 47
   else if c =? 92 then Some 92
   else if c =? 98 then Some 8
   else if c =? 102 then Some 12
   else if c =? 110 then Some 10
   else if c =? 114 then Some 13
   else if c =? 116 then Some 9
   else None)%N.

(** Close a pending numeric literal. *)
Definition flush (l : lexer) : lexer :=
  match mode l with
  | InNumber acc =>
      match parse_number_literal (rev acc) with
      | Some x => emit (TLit (VNum x)) (emitted l)
      | None => fail (emitted l)
      end
  | InGap => l
  | _ => fail (emitted l)
  end.

Definition lex_step (l : lexer) (c : code_unit) : lexer :=
  let out := emitted l in
  match mode l with
  | InGap => gap_step out c
  | InWord expected v =>
      match expected with
      | e :: rest =>
          if (c =? e)%N then
            match rest with
            | [] => emit (TLit v) out
            | _ => {| mode := InWord rest v; emitted := out |}
            end
          else fail out
      | [] => fail out
      end
  | InString acc =>
      (if c =? 34 then emit (TLit (VStr (rev acc))) out
       else if c =? 92 then {| mode := InEscape acc; emitted := out |}
       else if c <? 32 then fail out
       else {| mode := InString (c :: acc); emitted := out |})%N
  | InEscape acc =>
      if (c =? 117)%N then {| mode := InUnicode acc 0 0; emitted := out |}
      else
        match unescape c with
        | Some u => {| mode := InString (u :: acc); emitted := out |}
        | None => fail out
        end
  | InUnicode acc k h =>
      match hex_value c with
      | Some x =>
          let h' := (16 * h + x)%N in
          if Nat.eqb k 3
          then {| mode := InString (h' :: acc); emitted := out |}
          else {| mode := InUnicode acc (S k) h'; emitted := out |}
      | None => fail out
      end
  | InNumber acc =>
      if is_number_unit c
      then {| mode := InNumber (c :: acc); emitted := out |}
      else
        let l' := flush l in
        match mode l' with
        | InGap => gap_step (emitted l') c
        | _ => l'
        end
  | Failed => l
  end.

Definition lex_run (l : lexer) (t : text) : lexer := fold_left lex_step t l.

Definition lex (t : text) : option (list token) :=
  let l := flush (lex_run {| mode := InGap; emitted := [] |} t) in
  match mode l with
  | InGap => Some (rev (emitted l))
  | _ => None
  end.

(** *** JSON.parse: values *)

(** An array index: a canonical numeric string below [2^32 - 1].  Such keys
    come first, in ascending order, when the properties of an object are
    enumerated. *)
Definition array_index (k : text) : option N :=
  match span_digits k with
  | (d :: ds, []) =>
      let i := digits_value (d :: ds) in
      let canonical := match ds with [] => true | _ => negb (is_d0 d) end in
      if canonical && (i <=? 4294967294)%N then Some i else None
  | _ => None
  end.

Fixpoint replace_property (ps : list (text * value)) (k : text) (v : value)
  : option (list (text * value)) :=
  match ps with
  | [] => None
  | (k', v') :: ps' =>
      if text_eqb k' k then Some ((k', v) :: ps')
      else option_map (cons (k', v')) (replace_property ps' k v)
  end.

Fixpoint insert_index (ps : list (text * value)) (i : N) (k : text) (v : value)
  : list (text * value) :=
  match ps with
  | [] => [(k, v)]
  | (k', v') :: ps' =>
      match array_index k' with
      | Some j =>
          if (j <? i)%N then (k', v') :: insert_index ps' i k v
          else (k, v) :: ps
      | None => (k, v) :: ps
      end
  end.

(** CreateDataProperty on the object under construction: a repeated key
    keeps its place and takes the new value. *)
Definition define_property (ps : list (text * value)) (k : text) (v : value)
  : list (text * value) :=
  match replace_property ps k v with
  | Some ps' => ps'
  | None =>
      match array_index k with
      | Some i => insert_index ps i k v
      | None => ps ++ [(k, v)]
      end
  end.

Inductive frame :=
| InArr (vs : list value)
| InObj (ps : list (text * value))
| InMember (ps : list (text * value)) (k : text).

Inductive expect :=
| EValue | EValueOrEnd | EKey | EKeyOrEnd | EColon | EMore
| EDone (v : value).

Record parser := { expecting : expect; stack : list frame }.

(** A value is complete: hand it to the enclosing array or member. *)
Definition complete (v : value) (st : list frame) : option parser :=
  match st with
  | [] => Some {| expecting := EDone v; stack := [] |}
  | InArr vs :: st' =>
      Some {| expecting := EMore; stack := InArr (vs ++ [v]) :: st' |}
  | InMember ps k :: st' =>
      Some {| expecting := EMore; stack := InObj (define_property ps k v) :: st' |}
  | InObj _ :: _ => None
  end.

Definition begin_value (t : token) (st : list frame) : option parser :=
  match t with
  | TLit v => complete v st
  | TLBracket => Some {| expecting := EValueOrEnd; stack := InArr [] :: st |}
  | TLBrace => Some {| expecting := EKeyOrEnd; stack := InObj [] :: st |}
  | _ => None
  end.

Definition begin_member (t : token) (st : list frame) : option parser :=
  match t, st with
  | TLit (VStr k), InObj ps :: st' =>
      Some {| expecting := EColon; stack := InMember ps k :: st' |}
  | _, _ => None
  end.

Definition end_array (st : list frame) : option parser :=
  match st with
  | InArr vs :: st' => complete (VArr vs) st'
  | _ => None
  end.

Definition end_object (st : list frame) : option parser :=
  match st with
  | InObj ps :: st' => complete (VObj ps) st'
  | _ => None
  end.

Definition parse_step (p : parser) (t : token) : option parser :=
  let st := stack p in
  match expecting p with
  | EValue => begin_value t st
  | EValueOrEnd =>
      match t with
      | TRBracket => end_array st
      | _ => begin_value t st
      end
  | EKey => begin_member t st
  | EKeyOrEnd =>
      match t with
      | TRBrace => end_object st
      | _ => begin_member t st
      end
  | EColon =>
      match t with
      | TColon => Some {| expecting := EValue; stack := st |}
      | _ => None
      end
  | EMore =>
      match t with
      | TComma =>
          match st with
          | InArr _ :: _ => Some {| expecting := EValue; stack := st |}
          | InObj _ :: _ => Some {| expecting := EKey; stack := st |}
          | _ => None
          end
      | TRBracket => end_array st
      | TRBrace => end_object st
      | _ => None
      end
  | EDone _ => None
  end.

Fixpoint parse_run (p : parser) (ts : list token) : option parser :=
  match ts with
  | [] => Some p
  | t :: ts' =>
      match parse_step p t with
      | Some p' => parse_run p' ts'
      | None => None
      end
  end.

(** [JSON.parse(t)] without reviver: [None] stands for the SyntaxError it
    throws. *)
Definition JSON_parse (t : text) : option value :=
  match lex t with
  | Some ts =>
      match parse_run {| expecting := EValue; stack := [] |} ts with
      | Some {| expecting := EDone v; stack := [] |} => Some v
      | _ => None
      end
  | None => None
  end.

End ECMAScript.
Import ECMAScript.

(* ================================================================== *)
(** * The component *)

Module BoundaryWatersMap.

(** A waypoint is the two-element array [[latlng.lat, latlng.lng]]. *)
Definition Waypoint := (number * number)%type.

Record Route := {
  id : Z;
  name : text;
  color : text;
  description : text;
  waypoints : list Waypoint
}.

(** The four [useState] cells. *)
Record State := {
  routes : list Route;
  currentRoute : Route;
  isRecording : bool;
  selectedRoute : option Route
}.

(** ** getRandomColor *)

Definition letters : text := lit "0123456789ABCDEF".

(** The six values of [Math.floor(Math.random() * 16)] of one call. *)
Definition draws := (N * N * N * N * N * N)%type.

Definition letter (i : N) : code_unit :=
  nth (N.to_nat (i mod 16)) letters 48%N.

Definition getRandomColor (r : draws) : text :=
  let '(r0, r1, r2, r3, r4, r5) := r in
  lit "#" ++ [letter r0; letter r1; letter r2; letter r3; letter r4; letter r5].

(** ** Handlers *)

(** [`Route ${n}`] *)
Definition route_name (n : Z) : text :=
  lit "Route " ++ NumberToString (number_of_Z n).

Definition initialState (r : draws) : State :=
  {| routes := [];
     currentRoute := {| id := 1; name := route_name 1;
                        color := getRandomColor r;
                        description := []; waypoints := [] |};
     isRecording := false;
     selectedRoute := None |}.

Definition handleAddWaypoint (lat lng : number) (s : State) : State :=
  if isRecording s then
    let prev := currentRoute s in
    {| routes := routes s;
       currentRoute := {| id := id prev; name := name prev;
                          color := color prev;
                          description := description prev;
                          waypoints := waypoints prev ++ [(lat, lng)] |};
       isRecording := isRecording s;
       selectedRoute := selectedRoute s |}
  else s.

Definition validation_message : text :=
  lit "A route must have at least 2 waypoints!".

(** The outcome of [handleSaveRoute]: the early return after [alert], or the
    three state updates. *)
Inductive save_result :=
| Alerted (message : text)
| Saved (s : State).

Definition handleSaveRoute (r : draws) (s : State) : save_result :=
  if (length (waypoints (currentRoute s)) <? 2)%nat then
    Alerted validation_message
  else
    Saved
      {| routes := routes s ++ [currentRoute s];
         currentRoute := {| id := id (currentRoute s) + 1;
                            name := route_name (id (currentRoute s) + 1);
                            color := getRandomColor r;
                            description := [];
                            waypoints := [] |};
         isRecording := false;
         selectedRoute := selectedRoute s |}.

Definition handleDeleteRoute (routeId : Z) (s : State) : State :=
  {| routes := filter (fun route => negb (id route =? routeId)) (routes s);
     currentRoute := currentRoute s;
     isRecording := isRecording s;
     selectedRoute := None |}.

(** The two inputs wired to [handleRouteInfoChange]. *)
Inductive info_field := name_field | description_field.

Definition handleRouteInfoChange (f : info_field) (v : text) (s : State)
  : State :=
  let prev := currentRoute s in
  {| routes := routes s;
     currentRoute :=
       match f with
       | name_field =>
           {| id := id prev; name := v; color := color prev;
              description := description prev; waypoints := waypoints prev |}
       | description_field =>
           {| id := id prev; name := name prev; color := color prev;
              description := v; waypoints := waypoints prev |}
       end;
     isRecording := isRecording s;
     selectedRoute := selectedRoute s |}.

Definition toggleRecording (s : State) : State :=
  {| routes := routes s;
     currentRoute := currentRoute s;
     isRecording := negb (isRecording s);
     selectedRoute := selectedRoute s |}.

Definition setSelectedRoute (r : option Route) (s : State) : State :=
  {| routes := routes s;
     currentRoute := currentRoute s;
     isRecording := isRecording s;
     selectedRoute := r |}.

(** ** Persistence *)

Definition Storage := text -> option text.

Definition storage_key : text := lit "boundaryWatersRoutes".

Definition getItem (k : text) (st : Storage) : option text := st k.

Definition setItem (k v : text) (st : Storage) : Storage :=
  fun k' => if text_eqb k' k then Some v else st k'.

Definition waypoint_value (w : Waypoint) : value :=
  VArr [VNum (fst w); VNum (snd w)].

(** A route object, with its properties in the order the component creates
    them. *)
Definition route_value (r : Route) : value :=
  VObj [(lit "id", VNum (number_of_Z (id r)));
        (lit "name", VStr (name r));
        (lit "color", VStr (color r));
        (lit "description", VStr (description r));
        (lit "waypoints", VArr (map waypoint_value (waypoints r)))].

Definition routes_value (rs : list Route) : value :=
  VArr (map route_value rs).

(** The typed view of a parsed value.  A value is read as a route when it is
    an object with exactly the five properties of [route_value], in that
    order, an integer id and two-number waypoints; the component itself
    checks nothing, and a value of another shape is left outside the
    model. *)
Definition waypoint_of_value (v : value) : option Waypoint :=
  match v with
  | VArr [VNum lat; VNum lng] => Some (lat, lng)
  | _ => None
  end.

Fixpoint all_some {A B} (f : A -> option B) (l : list A) : option (list B) :=
  match l with
  | [] => Some []
  | a :: l' =>
      match f a, all_some f l' with
      | Some b, Some bs => Some (b :: bs)
      | _, _ => None
      end
  end.

Definition route_of_value (v : value) : option Route :=
  match v with
  | VObj [(k1, VNum i); (k2, VStr n); (k3, VStr c); (k4, VStr d);
          (k5, VArr ws)] =>
      if text_eqb k1 (lit "id") && text_eqb k2 (lit "name")
         && text_eqb k3 (lit "color") && text_eqb k4 (lit "description")
         && text_eqb k5 (lit "waypoints")
      then
        match Z_of_number i, all_some waypoint_of_value ws with
        | Some z, Some wps =>
            Some {| id := z; name := n; color := c; description := d;
                    waypoints := wps |}
        | _, _ => None
        end
      else None
  | _ => None
  end.

Definition routes_of_value (v : value) : option (list Route) :=
  match v with
  | VArr vs => all_some route_of_value vs
  | _ => None
  end.

Inductive exn := SyntaxError.

Inductive completion (A : Type) :=
| Normal (a : A)
| Throw (e : exn).
Arguments Normal {A} a.
Arguments Throw {A} e.

(** The first effect: the argument of [setRoutes], when it is called. *)
Definition load_effect (st : Storage) : completion (option value) :=
  match getItem storage_key st with
  | None => Normal None
  | Some [] => Normal None
  | Some savedRoutes =>
      match JSON_parse savedRoutes with
      | Some v => Normal (Some v)
      | None => Throw SyntaxError
      end
  end.

(** The second effect, run after a render in which [routes] changed. *)
Definition persist_effect (rs : list Route) (st : Storage) : Storage :=
  setItem storage_key (JSON_stringify (routes_value rs)) st.

(** ** The component in its environment *)

Record World := { ui : State; localStorage : Storage }.

Inductive mount_result :=
| Mounted (w : World)
| Crashed (e : exn)
| Untyped (v : value).
(** [Untyped v]: [setRoutes] received a value that is not a route
    collection; the component is not modelled beyond that point. *)

(** Mount: the first render, then both effects in order, then the render
    and the second effect that [setRoutes] causes. *)
Definition mount (r : draws) (st : Storage) : mount_result :=
  let s0 := initialState r in
  match load_effect st with
  | Throw e => Crashed e
  | Normal None =>
      Mounted {| ui := s0; localStorage := persist_effect (routes s0) st |}
  | Normal (Some v) =>
      match routes_of_value v with
      | Some rs =>
          Mounted
            {| ui := {| routes := rs; currentRoute := currentRoute s0;
                        isRecording := isRecording s0;
                        selectedRoute := selectedRoute s0 |};
               localStorage :=
                 persist_effect rs (persist_effect (routes s0) st) |}
      | None => Untyped v
      end
  end.

Inductive event :=
| MapClick (lat lng : number)
| ToggleClick
| SaveClick (r : draws)
| DeleteClick (routeId : Z)
| InfoChange (f : info_field) (v : text)
| SelectClick (r : Route).

(** One user event: the handler, the render, and the second effect when the
    handler called [setRoutes].  The second component is what [alert]
    showed. *)
Definition step (w : World) (e : event) : World * list text :=
  let s := ui w in
  match e with
  | MapClick lat lng =>
      ({| ui := handleAddWaypoint lat lng s; localStorage := localStorage w |},
       [])
  | ToggleClick =>
      ({| ui := toggleRecording s; localStorage := localStorage w |}, [])
  | SaveClick r =>
      match handleSaveRoute r s with
      | Alerted m => (w, [m])
      | Saved s' =>
          ({| ui := s';
              localStorage := persist_effect (routes s') (localStorage w) |},
           [])
      end
  | DeleteClick routeId =>
      let s' := handleDeleteRoute routeId s in
      ({| ui := s';
          localStorage := persist_effect (routes s') (localStorage w) |}, [])
  | InfoChange f v =>
      ({| ui := handleRouteInfoChange f v s; localStorage := localStorage w |},
       [])
  | SelectClick r =>
      ({| ui := setSelectedRoute (Some r) s; localStorage := localStorage w |},
       [])
  end.

Fixpoint run (w : World) (es : list event) : World :=
  match es with
  | [] => w
  | e :: es' => run (fst (step w e)) es'
  end.

(** The ids given to the in-progress routes created while [es] runs, in
    order of creation. *)
Fixpoint created_ids (w : World) (es : list event) : list Z :=
  match es with
  | [] => []
  | e :: es' =>
      let w' := fst (step w e) in
      match e with
      | SaveClick r =>
          match handleSaveRoute r (ui w) with
          | Saved s' => id (currentRoute s') :: created_ids w' es'
          | Alerted _ => created_ids w' es'
          end
      | _ => created_ids w' es'
      end
  end.

(** ** Rendering *)

(** What the component returns: the elements with the text they show and
    the handler they carry.  Class names, keys, the marker icon and the
    layout are left out. *)

Record PolylineView := {
  positions : list Waypoint;
  pathColor : text;
  pathWeight : Z;
  dashArray : option text;
  onPolylineClick : option Route
}.
(** [onPolylineClick := Some route] is [click: () => setSelectedRoute(route)];
    [dashArray := None] is a [pathOptions] without that property. *)

Record MarkerView := { position : Waypoint; popup : text }.

Record ControlsView := {
  nameValue : text;
  descriptionValue : text;
  waypointCount : text;
  saveDisabled : bool
}.

Record DetailsView := {
  shownDescription : text;
  shownCount : text;
  deleteId : Z
}.
(** [deleteId] is the argument of [handleDeleteRoute] in the button's
    [onClick]. *)

Record ItemView := {
  itemRoute : Route;
  highlighted : bool;
  dotColor : text;
  itemName : text;
  details : option DetailsView
}.
(** [itemRoute] is the argument of [setSelectedRoute] in the item's
    [onClick]. *)

Record View := {
  savedLines : list PolylineView;
  currentLine : option PolylineView;
  markers : list MarkerView;
  toggleLabel : text;
  controls : option ControlsView;
  emptyMessage : option text;
  items : list ItemView
}.

(** [`Waypoints: ${n}`] *)
Definition count_text (ws : list Waypoint) : text :=
  lit "Waypoints: " ++ NumberToString (number_of_Z (Z.of_nat (length ws))).

(** [waypoints.map((point, index) => <Marker position={point}>
    <Popup>Waypoint {index + 1}</Popup></Marker>)], from [index] on. *)
Fixpoint marker_views (index : nat) (ws : list Waypoint) : list MarkerView :=
  match ws with
  | [] => []
  | point :: ws' =>
      {| position := point;
         popup := lit "Waypoint "
                    ++ NumberToString (number_of_Z (Z.of_nat index + 1)) |}
        :: marker_views (S index) ws'
  end.

(** [selectedRoute?.id === route.id] *)
Definition is_selected (s : State) (route : Route) : bool :=
  match selectedRoute s with
  | Some sel => id sel =? id route
  | None => false
  end.

Definition render (s : State) : View :=
  let cur := currentRoute s in
  {| savedLines :=
       map (fun route =>
              {| positions := waypoints route; pathColor := color route;
                 pathWeight := 5; dashArray := None;
                 onPolylineClick := Some route |})
           (routes s);
     currentLine :=
       if (0 <? length (waypoints cur))%nat then
         Some {| positions := waypoints cur; pathColor := color cur;
                 pathWeight := 5;
                 dashArray := Some (if isRecording s then lit "5, 10" else []);
                 onPolylineClick := None |}
       else None;
     markers := if isRecording s then marker_views 0 (waypoints cur) else [];
     toggleLabel :=
       if isRecording s then lit "Stop Recording Route"
       else lit "Start Recording Route";
     controls :=
       if isRecording s then
         Some {| nameValue := name cur; descriptionValue := description cur;
                 waypointCount := count_text (waypoints cur);
                 saveDisabled := (length (waypoints cur) <? 2)%nat |}
       else None;
     emptyMessage :=
       match routes s with
       | [] => Some (lit "No routes saved yet.")
       | _ => None
       end;
     items :=
       map (fun route =>
              {| itemRoute := route;
                 highlighted := is_selected s route;
                 dotColor := color route;
                 itemName := name route;
                 details :=
                   if is_selected s route then
                     Some {| shownDescription :=
                               match description route with
                               | [] => lit "No description"
                               | d => d
                               end;
                             shownCount := count_text (waypoints route);
                             deleteId := id route |}
                   else None |})
           (routes s) |}.

(** The events the rendered elements can fire: the map and the toggle are
    always there; the inputs and the save button only in the recording
    panel, and a disabled button fires nothing; a saved route is selected
    through its polyline or its list item, and deleted through the button
    of an expanded item. *)
Definition offers (v : View) (e : event) : Prop :=
  match e with
  | MapClick _ _ => True
  | ToggleClick => True
  | SaveClick _ => exists c, controls v = Some c /\ saveDisabled c = false
  | InfoChange _ _ => controls v <> None
  | SelectClick r =>
      In (Some r) (map onPolylineClick (savedLines v))
      \/ In r (map itemRoute (items v))
  | DeleteClick routeId =>
      exists it d, In it (items v) /\ details it = Some d
                   /\ deleteId d = routeId
  end.

(** What [alert] showed while [es] ran. *)
Fixpoint alerts (w : World) (es : list event) : list text :=
  match es with
  | [] => []
  | e :: es' => snd (step w e) ++ alerts (fst (step w e)) es'
  end.

(** A run in which every event is fired by an element of the view of its
    moment. *)
Fixpoint offered_run (w : World) (es : list event) : Prop :=
  match es with
  | [] => True
  | e :: es' => offers (render (ui w)) e /\ offered_run (fst (step w e)) es'
  end.

End BoundaryWatersMap.
Import BoundaryWatersMap.

(* ================================================================== *)
(** * Vocabulary of the properties *)

(** Every saved route has at least two waypoints. *)
Definition saved_ok (s : State) : Prop :=
  Forall (fun r => (2 <= length (waypoints r))%nat) (routes s).

(** A sequence of clicks on the map. *)
Definition clicks (ws : list Waypoint) : list event :=
  map (fun w => MapClick (fst w) (snd w)) ws.

(** Two states that agree on everything but the recording flag. *)
Definition same_data (s s' : State) : Prop :=
  routes s' = routes s /\ currentRoute s' = currentRoute s
  /\ selectedRoute s' = selectedRoute s.

(** The storage of a browser that holds nothing for this origin. *)
Definition empty_storage : Storage := fun _ => None.

(** Number.isSafeInteger *)
Definition safe_integer (z : Z) : bool := Z.abs z <? 2 ^ 53.

(** A route whose id is a safe integer and whose coordinates are finite
    doubles other than [-0]. *)
Definition finite_route (r : Route) : bool :=
  safe_integer (id r)
  && forallb (fun w => finite_double (fst w) && finite_double (snd w))
       (waypoints r).

(** Keys that are not array indices, all different. *)
Fixpoint distinct_keys (ks : list text) : bool :=
  match ks with
  | [] => true
  | k :: ks' => negb (existsb (text_eqb k) ks') && distinct_keys ks'
  end.

Definition plain_keys (ks : list text) : bool :=
  forallb (fun k => match array_index k with None => true | Some _ => false end) ks
  && distinct_keys ks.

(** The values [JSON.stringify] writes without loss. *)
Fixpoint plain (v : value) : bool :=
  match v with
  | VNum x => finite_double x
  | VArr vs => forallb plain vs
  | VObj ps => plain_keys (map fst ps) && forallb (fun p => plain (snd p)) ps
  | _ => true
  end.

(** The tokens of the text [JSON.stringify] writes for a value. *)
Fixpoint separate (parts : list (list token)) : list token :=
  match parts with
  | [] => []
  | [p] => p
  | p :: rest => p ++ TComma :: separate rest
  end.

Fixpoint tokens_of (v : value) : list token :=
  match v with
  | VArr vs => TLBracket :: separate (map tokens_of vs) ++ [TRBracket]
  | VObj ps =>
      TLBrace
        :: separate
             (map (fun p => TLit (VStr (fst p)) :: TColon :: tokens_of (snd p))
                ps)
        ++ [TRBrace]
  | _ => [TLit v]
  end.

(** A text at whose front no digit stands. *)
Definition stops (r : text) : Prop :=
  match r with
  | c :: _ => unit_digit c = None
  | [] => True
  end.

(** The lexer, started between two tokens, reads the text [t] as the tokens
    [ts]; a number at the end of [t] is closed by [flush]. *)
Definition lexes_to (t : text) (ts : list token) : Prop :=
  forall out,
    flush (lex_run {| mode := InGap; emitted := out |} t)
    = {| mode := InGap; emitted := rev ts ++ out |}.

(** The parser, where a value may start, reads the tokens [ts] as the value
    [v] and hands it to what encloses it. *)
Definition parses_to (ts : list token) (v : value) : Prop :=
  forall e st rest,
    e = EValue \/ e = EValueOrEnd ->
    parse_run {| expecting := e; stack := st |} (ts ++ rest)
    = match complete v st with
      | Some p => parse_run p rest
      | None => None
      end.

Definition member_tokens (p : text * value) : list token :=
  TLit (VStr (fst p)) :: TColon :: tokens_of (snd p).

(** The ids of the saved routes grow along the collection and stay below
    the id of the in-progress route. *)
Definition ids_ok (s : State) : Prop :=
  StronglySorted Z.lt (map id (routes s))
  /\ Forall (fun r => id r < id (currentRoute s)) (routes s).

(** The selection, when there is one, is a saved route. *)
Definition selection_ok (s : State) : Prop :=
  forall r, selectedRoute s = Some r -> In r (routes s).

(** The storage holds, under the key, the serialization of the saved
    collection. *)
Definition synced (w : World) : Prop :=
  getItem storage_key (localStorage w)
  = Some (JSON_stringify (routes_value (routes (ui w)))).

(** A list item that shows its details and its delete button. *)
Definition expanded (it : ItemView) : bool :=
  match details it with
  | Some _ => true
  | None => false
  end.

(** The route that a save makes of the first in-progress route of a
    session, recorded with the waypoints [ws]. *)
Definition first_route (c : draws) (ws : list Waypoint) : Route :=
  {| id := 1; name := route_name 1; color := getRandomColor c;
     description := []; waypoints := ws |}.

(** The decimal numeral of an integer. *)
Definition decimal_text (z : Z) : text :=
  match z with
  | Z0 => lit "0"
  | Zpos p => digits_text (digits_of_pos p)
  | Zneg p => lit "-" ++ digits_text (digits_of_pos p)
  end.

(** A number as it is read back after it was written: [-0] has become [0],
    every other finite number is itself. *)
Definition unsigned_zero (x : number) : number :=
  match x with
  | Zero _ => Zero false
  | _ => x
  end.

Definition reloaded_route (r : Route) : Route :=
  {| id := id r; name := name r; color := color r;
     description := description r;
     waypoints :=
       map (fun w => (unsigned_zero (fst w), unsigned_zero (snd w)))
         (waypoints r) |}.

(** A run of edits of the name and description inputs. *)
Definition edits (l : list (info_field * text)) : list event :=
  map (fun p => InfoChange (fst p) (snd p)) l.

Definition same_field (f g : info_field) : bool :=
  match f, g with
  | name_field, name_field | description_field, description_field => true
  | _, _ => false
  end.

(** The last value typed into the input [f], or [old] when none was. *)
Definition last_edit (f : info_field) (l : list (info_field * text))
    (old : text) : text :=
  fold_left (fun acc p => if same_field (fst p) f then snd p else acc) l old.

(** The doubles as this model holds them: [NaN], the infinities, the zeros,
    and the canonical decimals inside the range. *)
Definition is_double (x : number) : bool :=
  match x with
  | Dec _ ds n =>
      canonical ds && negb (overflows ds n) && negb (underflows ds n)
  | _ => true
  end.

Definition double_route (r : Route) : bool :=
  safe_integer (id r)
  && forallb (fun w => is_double (fst w) && is_double (snd w)) (waypoints r).

(** A route whose id is a safe integer and whose coordinates are finite
    doubles, [-0] included. *)
Definition finite_numbers (r : Route) : bool :=
  safe_integer (id r)
  && forallb (fun w => (is_double (fst w) && is_finite (fst w))
                       && (is_double (snd w) && is_finite (snd w)))
       (waypoints r).

(** What comes back for a number that was written: [null] for [NaN] and
    the infinities, [0] for both zeros. *)
Definition written_number (x : number) : value :=
  match x with
  | NaN | Inf _ => VNull
  | Zero _ => VNum (Zero false)
  | Dec _ _ _ => VNum x
  end.

Definition written_route (r : Route) : value :=
  VObj [(lit "id", VNum (number_of_Z (id r)));
        (lit "name", VStr (name r));
        (lit "color", VStr (color r));
        (lit "description", VStr (description r));
        (lit "waypoints",
         VArr (map (fun w => VArr [written_number (fst w);
                                   written_number (snd w)])
                 (waypoints r)))].

Definition written_routes (rs : list Route) : value :=
  VArr (map written_route rs).

(** ** Sample data *)

Definition sample_draws : draws := (1, 2, 3, 10, 11, 12)%N.

(** The clicks of the scenario: (47.90, -91.80) and (47.91, -91.81). *)
Definition click_a : Waypoint := (Dec false [d4; d7; d9] 2, Dec true [d9; d1; d8] 2).
Definition click_b : Waypoint :=
  (Dec false [d4; d7; d9; d1] 2, Dec true [d9; d1; d8; d1] 2).

(** The component mounted in a browser that stored nothing. *)
Definition fresh_world : World :=
  {| ui := initialState sample_draws;
     localStorage := persist_effect [] empty_storage |}.

(** Recording switched on, two clicks made. *)
Definition recorded_world : World :=
  run fresh_world (ToggleClick :: clicks [click_a; click_b]).

Definition sample_route : Route :=
  {| id := 1; name := route_name 1; color := getRandomColor sample_draws;
     description := [];
     waypoints := [click_a; click_b] |}.

(** A session: record and save a route, delete it, record and save again. *)
Definition sample_session : list event :=
  ToggleClick :: clicks [click_a; click_b]
    ++ [SaveClick sample_draws; DeleteClick 1; ToggleClick]
    ++ clicks [click_b; click_a] ++ [SaveClick sample_draws].

(** A session in which a click at latitude [-0] is recorded and saved. *)
Definition zero_session : list event :=
  ToggleClick :: clicks [(Zero true, Zero false); click_a]
    ++ [SaveClick sample_draws].

(** A session through the view: record, save, select the saved route. *)
Definition view_session : list event :=
  ToggleClick :: clicks [click_a; click_b]
    ++ [SaveClick sample_draws; SelectClick sample_route].

(** The storage in which an earlier session left [sample_route]. *)
Definition sample_storage : Storage :=
  persist_effect [sample_route] empty_storage.

(** The component mounted on [sample_storage]. *)
Definition reloaded_world : World :=
  {| ui := {| routes := [sample_route];
              currentRoute := currentRoute (initialState sample_draws);
              isRecording := false;
              selectedRoute := None |};
     localStorage :=
       persist_effect [sample_route] (persist_effect [] sample_storage) |}.

(** A world in which [sample_route] is saved and selected. *)
Definition selected_world : World :=
  {| ui := {| routes := [sample_route];
              currentRoute := currentRoute (initialState sample_draws);
              isRecording := false;
              selectedRoute := Some sample_route |};
     localStorage := persist_effect [sample_route] empty_storage |}.

(** A route with a coordinate that is not finite. *)
Definition infinite_route : Route :=
  {| id := 1; name := lit "a"; color := lit "#000000"; description := [];
     waypoints := [(Inf false, Zero false); (Zero false, Zero false)] |}.

(** A stored text with a numeric literal beyond the range of doubles. *)
Definition stored_overflow : text :=
  lit "[{" ++ QuoteJSONString (lit "id") ++ lit ":1,"
    ++ QuoteJSONString (lit "name") ++ lit ":" ++ QuoteJSONString (lit "a")
    ++ lit "," ++ QuoteJSONString (lit "color") ++ lit ":"
    ++ QuoteJSONString (lit "#000000") ++ lit ","
    ++ QuoteJSONString (lit "description") ++ lit ":"
    ++ QuoteJSONString [] ++ lit ","
    ++ QuoteJSONString (lit "waypoints") ++ lit ":[[1e999,0],[0,0]]}]".

(* ================================================================== *)
(** * The handlers *)

(** ** deleteRoute *)

Lemma filter_keeps_all (routeId : Z) (rs : list Route) :
  (forall r, In r rs -> id r <> routeId) ->
  filter (fun route => negb (id route =? routeId)) rs = rs.
Proof.
  induction rs as [|r rs IH]; intros H; simpl; [reflexivity|].
  destruct (Z.eqb_spec (id r) routeId) as [E|_]; simpl.
  - exfalso. apply (H r); [left; reflexivity | exact E].
  - f_equal. apply IH. intros r' Hr'. apply H. right. exact Hr'.
Qed.

(** C10. [handleDeleteRoute] ends with [setSelectedRoute(null)] whatever the
    id and the selection were: after it nothing is selected, also when the
    selection was another route that is still saved, and when no saved route
    has that id. *)
Theorem delete_clears_selection (w : World) (routeId : Z) :
  selectedRoute (handleDeleteRoute routeId (ui w)) = None
  /\ selectedRoute (ui (fst (step w (DeleteClick routeId)))) = None.
Proof. split; reflexivity. Qed.

(** C2, as the code has it.  Deleting an id that no saved route has raises
    nothing and leaves the saved collection, the in-progress route and the
    recording flag as they were; the selection is reset to none. *)
Theorem delete_absent_id (w : World) (routeId : Z) :
  (forall r, In r (routes (ui w)) -> id r <> routeId) ->
  handleDeleteRoute routeId (ui w) = setSelectedRoute None (ui w)
  /\ snd (step w (DeleteClick routeId)) = [].
Proof.
  intros H. split; [|reflexivity].
  unfold handleDeleteRoute, setSelectedRoute.
  rewrite (filter_keeps_all routeId (routes (ui w)) H). reflexivity.
Qed.

(** ** saveRoute *)

(** C3. With fewer than two waypoints on the in-progress route,
    [handleSaveRoute] shows the validation message and returns: the state
    and the storage are what they were. *)
Theorem save_rejected (w : World) (r : draws) :
  (length (waypoints (currentRoute (ui w))) < 2)%nat ->
  handleSaveRoute r (ui w) = Alerted validation_message
  /\ step w (SaveClick r) = (w, [validation_message]).
Proof.
  intros H. unfold step, handleSaveRoute.
  destruct (Nat.ltb_spec (length (waypoints (currentRoute (ui w)))) 2);
    [split; reflexivity | lia].
Qed.

(** Right after a save the in-progress route is empty, so a second save is
    refused. *)
Lemma save_twice (r r' : draws) (s s' : State) :
  handleSaveRoute r s = Saved s' ->
  handleSaveRoute r' s' = Alerted validation_message.
Proof.
  unfold handleSaveRoute.
  destruct (length (waypoints (currentRoute s)) <? 2)%nat; [discriminate|].
  intros H. inversion H. reflexivity.
Qed.

(** ** toggleRecording *)

(** C9. The toggle flips the flag and nothing else: saved routes, in-progress
    route with its waypoints, selection and storage stay; nothing is
    alerted. *)
Theorem toggle_only_flips (w : World) :
  let w' := fst (step w ToggleClick) in
  isRecording (ui w') = negb (isRecording (ui w))
  /\ same_data (ui w) (ui w')
  /\ localStorage w' = localStorage w
  /\ snd (step w ToggleClick) = [].
Proof. simpl. unfold same_data. simpl. repeat split. Qed.

(** ** addWaypoint *)

Lemma click_recording (w : World) (p : Waypoint) :
  isRecording (ui w) = true ->
  let w' := fst (step w (MapClick (fst p) (snd p))) in
  isRecording (ui w') = true
  /\ routes (ui w') = routes (ui w)
  /\ waypoints (currentRoute (ui w')) = waypoints (currentRoute (ui w)) ++ [p].
Proof.
  intros H. simpl. unfold handleAddWaypoint. rewrite H. simpl.
  destruct p; repeat split; assumption.
Qed.

Lemma clicks_recording (ws : list Waypoint) : forall w : World,
  isRecording (ui w) = true ->
  routes (ui (run w (clicks ws))) = routes (ui w)
  /\ waypoints (currentRoute (ui (run w (clicks ws))))
     = waypoints (currentRoute (ui w)) ++ ws.
Proof.
  induction ws as [|p ws IH]; intros w H.
  - simpl. rewrite app_nil_r. split; reflexivity.
  - destruct (click_recording w p H) as (Hrec & Hroutes & Hwps).
    change (run w (clicks (p :: ws)))
      with (run (fst (step w (MapClick (fst p) (snd p)))) (clicks ws)).
    destruct (IH _ Hrec) as [IHr IHw].
    rewrite IHr, IHw, Hroutes, Hwps, <- app_assoc. split; reflexivity.
Qed.

(** C7. While recording, a run of clicks adds exactly the clicked pairs, in
    click order, at the end of the in-progress waypoints, so a fresh route
    has as many waypoints as there were clicks; while idle, a click changes
    nothing at all. *)
Theorem clicks_append_in_order (w : World) (ws : list Waypoint) :
  (isRecording (ui w) = true ->
   let w' := run w (clicks ws) in
   waypoints (currentRoute (ui w')) = waypoints (currentRoute (ui w)) ++ ws
   /\ routes (ui w') = routes (ui w)
   /\ (waypoints (currentRoute (ui w)) = [] ->
       waypoints (currentRoute (ui w')) = ws
       /\ length (waypoints (currentRoute (ui w'))) = length ws))
  /\ (isRecording (ui w) = false ->
      forall lat lng, step w (MapClick lat lng) = (w, [])).
Proof.
  split.
  - intros H. destruct (clicks_recording ws w H) as [Hr Hw]. simpl.
    split; [exact Hw|]. split; [exact Hr|].
    intros E. rewrite Hw, E. split; reflexivity.
  - intros H lat lng. simpl. unfold handleAddWaypoint. rewrite H.
    destruct w; reflexivity.
Qed.

(** ** The saved collection *)

Lemma step_routes (w : World) (e : event) (r : Route) :
  In r (routes (ui (fst (step w e)))) ->
  In r (routes (ui w)) \/ (2 <= length (waypoints r))%nat.
Proof.
  destruct e as [lat lng| |c|routeId|f v|sel]; simpl.
  - unfold handleAddWaypoint. destruct (isRecording (ui w)); simpl; auto.
  - auto.
  - unfold handleSaveRoute.
    destruct (Nat.ltb_spec (length (waypoints (currentRoute (ui w)))) 2) as [|Hlen];
      simpl; [auto|].
    intros Hin. apply in_app_or in Hin. destruct Hin as [Hin|[<-|[]]]; auto.
  - intros Hin. apply filter_In in Hin. left. apply Hin.
  - auto.
  - auto.
Qed.

Lemma step_saved_ok (w : World) (e : event) :
  saved_ok (ui w) -> saved_ok (ui (fst (step w e))).
Proof.
  unfold saved_ok. rewrite !Forall_forall. intros H r Hin.
  destruct (step_routes w e r Hin) as [Hold|Hnew]; [apply H; exact Hold | exact Hnew].
Qed.

(** C6. Every event keeps the invariant that each saved route has at least
    two waypoints, so it holds along any run; and a route that an event adds
    to the saved collection has at least two waypoints. *)
Theorem saved_routes_have_two_waypoints (w : World) (es : list event) :
  saved_ok (ui w) ->
  saved_ok (ui (run w es))
  /\ forall e r, In r (routes (ui (fst (step w e)))) ->
                 In r (routes (ui w)) \/ (2 <= length (waypoints r))%nat.
Proof.
  intros H. split; [|intros e r; apply step_routes].
  revert w H. induction es as [|e es IH]; intros w H; simpl; [exact H|].
  apply IH. apply step_saved_ok. exact H.
Qed.

(** ** Ids *)

Lemma step_id (w : World) (e : event) :
  match e with
  | SaveClick r =>
      match handleSaveRoute r (ui w) with
      | Saved s' =>
          id (currentRoute s') = id (currentRoute (ui w)) + 1
          /\ ui (fst (step w e)) = s'
      | Alerted _ => fst (step w e) = w
      end
  | _ => id (currentRoute (ui (fst (step w e)))) = id (currentRoute (ui w))
  end.
Proof.
  destruct e as [lat lng| |c|routeId|f v|sel]; simpl; try reflexivity.
  - unfold handleAddWaypoint. destruct (isRecording (ui w)); reflexivity.
  - unfold handleSaveRoute.
    destruct (length (waypoints (currentRoute (ui w))) <? 2)%nat; simpl; auto.
  - destruct f; reflexivity.
Qed.

Lemma StronglySorted_same_head (a b : Z) (l : list Z) :
  a <= b -> StronglySorted Z.lt (b :: l) -> StronglySorted Z.lt (a :: l).
Proof.
  intros Hab H. apply StronglySorted_inv in H. destruct H as [Hs Hf].
  constructor; [exact Hs|].
  eapply Forall_impl; [|exact Hf]. intros x Hx. simpl in Hx. lia.
Qed.

Lemma created_ids_sorted (es : list event) : forall w : World,
  StronglySorted Z.lt (id (currentRoute (ui w)) :: created_ids w es).
Proof.
  induction es as [|e es IH]; intros w.
  - simpl. constructor; constructor.
  - specialize (IH (fst (step w e))). pose proof (step_id w e) as Hid.
    destruct e as [lat lng| |c|routeId|f v|sel];
      try (cbn [created_ids]; rewrite <- Hid; exact IH).
    cbn [created_ids].
    destruct (handleSaveRoute c (ui w)) as [m|s'].
    + rewrite Hid in IH |- *. exact IH.
    + destruct Hid as [Hnext Hui]. rewrite Hui in IH.
      constructor; [exact IH|].
      constructor; [lia|].
      apply StronglySorted_inv in IH. destruct IH as [_ Hf].
      eapply Forall_impl; [|exact Hf]. intros x Hx. simpl in Hx. lia.
Qed.

Lemma last_cons_default {A} (l : list A) : forall a d : A,
  last (a :: l) d = last l a.
Proof.
  induction l as [|b l IH]; intros a d; [reflexivity|].
  change (last (a :: b :: l) d) with (last (b :: l) d).
  rewrite (IH b d), (IH b a). reflexivity.
Qed.

Lemma created_ids_last (es : list event) : forall w : World,
  id (currentRoute (ui (run w es)))
  = last (created_ids w es) (id (currentRoute (ui w))).
Proof.
  induction es as [|e es IH]; intros w; [reflexivity|].
  specialize (IH (fst (step w e))). pose proof (step_id w e) as Hid.
  cbn [run]. rewrite IH. clear IH.
  destruct e as [lat lng| |c|routeId|f v|sel];
    try (cbn [created_ids]; rewrite Hid; reflexivity).
  cbn [created_ids].
  destruct (handleSaveRoute c (ui w)) as [m|s'].
  - rewrite Hid. reflexivity.
  - destruct Hid as [_ Hui]. rewrite Hui. symmetry. apply last_cons_default.
Qed.

(** C5. In a session the first in-progress route has id 1, and the ids of
    the in-progress routes created afterwards form, with it, a strictly
    increasing sequence, whatever was deleted in between: each new id is
    greater than every id handed out before.  The in-progress route at the
    end carries the last of them. *)
Theorem ids_never_reused (c : draws) (st : Storage) (w : World)
    (es : list event) :
  mount c st = Mounted w ->
  id (currentRoute (ui w)) = 1
  /\ StronglySorted Z.lt (1 :: created_ids w es)
  /\ id (currentRoute (ui (run w es))) = last (created_ids w es) 1.
Proof.
  intros Hm.
  assert (H1 : id (currentRoute (ui w)) = 1).
  { unfold mount in Hm. destruct (load_effect st) as [[v|]|e]; try discriminate.
    - destruct (routes_of_value v); inversion Hm; reflexivity.
    - inversion Hm; reflexivity. }
  split; [exact H1|]. rewrite <- H1.
  split; [apply created_ids_sorted | apply created_ids_last].
Qed.
(* ================================================================== *)
(** * The platform functions on examples *)

Example ToString_coordinate :
  NumberToString (fst click_a) = lit "47.9"
  /\ NumberToString (snd click_b) = lit "-91.81".
Proof. split; reflexivity. Qed.

Example ToString_notations :
  NumberToString (number_of_Z 1200) = lit "1200"
  /\ NumberToString (Dec false [d5] (-3)) = lit "0.0005"
  /\ NumberToString (Dec false [d1; d2] (-7)) = lit "1.2e-8"
  /\ NumberToString (Dec true [d1] 22) = lit "-1e+21"
  /\ NumberToString (Zero true) = lit "0".
Proof. repeat split. Qed.

Example stringify_not_finite :
  JSON_stringify (VArr [VNum NaN; VNum (Inf true); VNum (Zero true)])
  = lit "[null,null,0]".
Proof. reflexivity. Qed.

(** Line feed, quotation mark, a lone surrogate, a surrogate pair. *)
Example stringify_escapes :
  JSON_stringify (VStr [10; 34; 55357; 55357; 56832]%N)
  = [34; 92; 110; 92; 34; 92; 117; 100; 56; 51; 100; 55357; 56832; 34]%N.
Proof. reflexivity. Qed.

Example parse_values :
  JSON_parse (lit " [1, 2.50e1, -0, 1E-2, true, null, {}] ")
  = Some (VArr [VNum (Dec false [d1] 1); VNum (Dec false [d2; d5] 2);
                VNum (Zero true); VNum (Dec false [d1] (-1)); VBool true;
                VNull; VObj []]).
Proof. reflexivity. Qed.

Example parse_out_of_range :
  JSON_parse (lit "[1e999,-1e999,1e-999]")
  = Some (VArr [VNum (Inf false); VNum (Inf true); VNum (Zero false)]).
Proof. reflexivity. Qed.

Example parse_rejects :
  map JSON_parse
    [lit "{"; lit "[1,]"; lit "01"; lit "1 2"; lit "nul"; lit "+1"; lit ".5";
     lit "1."; lit "[1}"; lit "undefined"; lit " "; [34; 10; 34]%N]
  = repeat None 12.
Proof. reflexivity. Qed.

(** A repeated key keeps its place and takes the last value; an array index
    goes to the front. *)
Example parse_object_keys :
  JSON_parse
    (lit "{" ++ QuoteJSONString (lit "b") ++ lit ":1,"
       ++ QuoteJSONString (lit "a") ++ lit ":2,"
       ++ QuoteJSONString (lit "7") ++ lit ":3,"
       ++ QuoteJSONString (lit "b") ++ lit ":4}")
  = Some (VObj [(lit "7", VNum (Dec false [d3] 1));
                (lit "b", VNum (Dec false [d4] 1));
                (lit "a", VNum (Dec false [d2] 1))]).
Proof. reflexivity. Qed.

(** The thresholds behind the shortcuts of [overflows] and [underflows]:
    [2^1024 - 2^970] has 309 integer digits, and [2^-1075] lies between
    [10^-324] and [10^-323]. *)
Example range_of_doubles :
  10 ^ 308 <= overflow_threshold < 10 ^ 309
  /\ 10 ^ 751 <= 5 ^ 1075 < 10 ^ 752.
Proof. unfold overflow_threshold. split; split; vm_compute; congruence. Qed.

Example color_of_draws : getRandomColor sample_draws = lit "#123ABC".
Proof. reflexivity. Qed.

Example name_of_second_route : route_name 2 = lit "Route 2".
Proof. reflexivity. Qed.

(* ================================================================== *)
(** * Digits and numeric literals *)

Lemma unit_digit_unit (d : digits) : unit_digit (digit_unit d) = Some d.
Proof. destruct d; reflexivity. Qed.

Lemma span_digits_text (ds : list digits) (r : text) :
  stops r -> span_digits (digits_text ds ++ r) = (ds, r).
Proof.
  intros Hr. induction ds as [|d ds IH].
  - destruct r as [|c r]; simpl in *; [reflexivity|]. rewrite Hr. reflexivity.
  - change (digits_text (d :: ds) ++ r)
      with (digit_unit d :: (digits_text ds ++ r)).
    cbn [span_digits]. rewrite unit_digit_unit, IH. reflexivity.
Qed.

Lemma span_digits_all (ds : list digits) :
  span_digits (digits_text ds) = (ds, []).
Proof.
  rewrite <- (app_nil_r (digits_text ds)). apply span_digits_text. exact I.
Qed.

Lemma digits_text_app (a b : list digits) :
  digits_text (a ++ b) = digits_text a ++ digits_text b.
Proof. apply map_app. Qed.

Lemma drop_zeros_zeros (a : nat) (ds : list digits) :
  drop_zeros (zeros a ++ ds) = drop_zeros ds.
Proof. induction a as [|a IH]; simpl; [reflexivity | exact IH]. Qed.

Lemma rev_zeros (a : nat) : rev (zeros a) = zeros a.
Proof.
  unfold zeros. induction a as [|a IH]; [reflexivity|].
  simpl. rewrite IH. clear IH. induction a as [|a IH]; [reflexivity|].
  simpl. rewrite IH. reflexivity.
Qed.

Lemma canonical_inv (ds : list digits) :
  canonical ds = true ->
  exists d ds', ds = d :: ds' /\ is_d0 d = false /\ is_d0 (last ds d0) = false.
Proof.
  destruct ds as [|d ds']; [discriminate|]. unfold canonical.
  intros H. apply andb_prop in H. destruct H as [H1 H2].
  exists d, ds'. repeat split.
  - destruct (is_d0 d); [discriminate | reflexivity].
  - destruct (is_d0 (last (d :: ds') d0)); [discriminate | reflexivity].
Qed.

Lemma drop_zeros_canonical (ds r : list digits) :
  canonical ds = true -> drop_zeros (ds ++ r) = ds ++ r.
Proof.
  intros H. destruct (canonical_inv ds H) as (d & ds' & -> & Hd & _).
  simpl. rewrite Hd. reflexivity.
Qed.

Lemma strip_trailing_zeros_canonical (ds : list digits) (b : nat) :
  canonical ds = true -> strip_trailing_zeros (ds ++ zeros b) = ds.
Proof.
  intros H. destruct (canonical_inv ds H) as (d & ds' & E & _ & Hl).
  unfold strip_trailing_zeros. rewrite rev_app_distr, rev_zeros, drop_zeros_zeros.
  assert (Hne : ds <> []) by (rewrite E; discriminate).
  destruct (exists_last Hne) as (front & z & Ez).
  rewrite Ez in Hl |- *. rewrite last_last in Hl.
  rewrite rev_app_distr. simpl. rewrite Hl. simpl.
  rewrite rev_involutive. reflexivity.
Qed.

Lemma number_of_decimal_canonical (neg : bool) (a b : nat) (ds : list digits)
    (n : Z) :
  canonical ds = true ->
  overflows ds (n - Z.of_nat a) = false ->
  underflows ds (n - Z.of_nat a) = false ->
  number_of_decimal neg (zeros a ++ ds ++ zeros b) n = Dec neg ds (n - Z.of_nat a).
Proof.
  intros Hc Ho Hu. unfold number_of_decimal.
  rewrite drop_zeros_zeros, (drop_zeros_canonical ds (zeros b) Hc).
  rewrite (strip_trailing_zeros_canonical ds b Hc).
  replace (length (zeros a ++ ds ++ zeros b) - length (ds ++ zeros b))%nat
    with a.
  2:{ rewrite !length_app. unfold zeros. rewrite !repeat_length. lia. }
  destruct ds as [|d ds']; [discriminate Hc|].
  rewrite Ho, Hu. reflexivity.
Qed.
Lemma digits_of_N_value (m : N) : digits_value (digits_of_N m) = m.
Proof.
  unfold digits_value, digits_of_N. rewrite of_list_to_list.
  apply DecimalN.Unsigned.of_to.
Qed.

Lemma digits_of_N_nonempty (m : N) : nonempty (digits_of_N m) = true.
Proof.
  unfold digits_of_N.
  assert (H : N.to_uint m <> Decimal.Nil).
  { destruct m as [|p]; [discriminate|]. apply DecimalPos.Unsigned.to_uint_nonnil. }
  destruct (N.to_uint m); [contradiction | reflexivity..].
Qed.

Lemma take_exponent_printed (e : Z) :
  take_exponent
    (lit "e" ++ (if e <? 0 then lit "-" else lit "+")
       ++ digits_text (digits_of_N (Z.abs_N e)))
  = Some (e, []).
Proof.
  change (lit "e") with [101%N]. change (lit "-") with [45%N].
  change (lit "+") with [43%N].
  destruct (Z.ltb_spec e 0) as [Hneg|Hpos]; cbn [app take_exponent N.eqb Pos.eqb orb];
    rewrite span_digits_all, digits_of_N_nonempty, digits_of_N_value,
      N2Z.inj_abs_N; do 2 f_equal; lia.
Qed.

Lemma take_exponent_none : take_exponent [] = Some (0, []).
Proof. reflexivity. Qed.

Lemma take_fraction_none : take_fraction [] = Some ([], []).
Proof. reflexivity. Qed.

Lemma take_fraction_e (r : text) :
  take_fraction (101%N :: r) = Some ([], 101%N :: r).
Proof. reflexivity. Qed.

Lemma take_fraction_printed (fs : list digits) (r : text) :
  nonempty fs = true -> stops r ->
  take_fraction (lit "." ++ digits_text fs ++ r) = Some (fs, r).
Proof.
  intros Hne Hr. change (lit ".") with [46%N]. cbn [app take_fraction N.eqb Pos.eqb].
  rewrite (span_digits_text fs r Hr), Hne. reflexivity.
Qed.
Lemma number_of_decimal_eq (neg : bool) (a b : nat) (ds all : list digits)
    (n n0 : Z) :
  canonical ds = true -> overflows ds n = false -> underflows ds n = false ->
  all = zeros a ++ ds ++ zeros b -> n0 = n + Z.of_nat a ->
  number_of_decimal neg all n0 = Dec neg ds n.
Proof.
  intros Hc Ho Hu -> ->.
  rewrite <- (Z.add_simpl_r n (Z.of_nat a)) in Ho, Hu.
  rewrite (number_of_decimal_canonical neg a b ds _ Hc Ho Hu).
  f_equal. lia.
Qed.

Lemma int_ok_canonical (ds r : list digits) :
  canonical ds = true -> int_ok (ds ++ r) = true.
Proof.
  intros Hc. destruct (canonical_inv ds Hc) as (d & ds' & -> & Hd & _).
  simpl. destruct (ds' ++ r); [reflexivity|]. rewrite Hd. reflexivity.
Qed.

Lemma int_ok_firstn (ds : list digits) (m : nat) :
  canonical ds = true -> int_ok (firstn (S m) ds) = true.
Proof.
  intros Hc. destruct (canonical_inv ds Hc) as (d & ds' & -> & Hd & _).
  simpl. destruct (firstn m ds'); [reflexivity|]. rewrite Hd. reflexivity.
Qed.

Lemma stops_e (r : text) : stops (lit "e" ++ r).
Proof. reflexivity. Qed.

Lemma stops_point (r : text) : stops (lit "." ++ r).
Proof. reflexivity. Qed.

Lemma parse_unsigned_ToString (neg : bool) (ds : list digits) (n : Z) :
  canonical ds = true -> overflows ds n = false -> underflows ds n = false ->
  parse_unsigned neg (ToString_finite ds n) = Some (Dec neg ds n).
Proof.
  intros Hc Ho Hu. unfold ToString_finite, parse_unsigned.
  destruct ((-5 <=? n) && (n <=? 21)) eqn:Hrange.
  - destruct (Z.leb_spec (Z.of_nat (length ds)) n) as [Hkn|Hkn].
    + rewrite <- digits_text_app, span_digits_all, (int_ok_canonical _ _ Hc),
        take_fraction_none, take_exponent_none.
      f_equal.
      apply (number_of_decimal_eq neg 0 (Z.to_nat (n - Z.of_nat (length ds))));
        try assumption.
      * rewrite app_nil_r. reflexivity.
      * rewrite length_app. unfold zeros. rewrite repeat_length. lia.
    + destruct (Z.ltb_spec 0 n) as [Hn|Hn].
      * destruct (Z.to_nat n) as [|m] eqn:Em; [lia|].
        rewrite (span_digits_text _ _ (stops_point _)), (int_ok_firstn ds m Hc).
        rewrite <- (app_nil_r (digits_text (skipn (S m) ds))).
        rewrite take_fraction_printed; [|  | exact I].
        2:{ assert (Hlen : (S m < length ds)%nat) by lia.
            destruct (skipn (S m) ds) eqn:Es; [|reflexivity].
            apply (f_equal (@length _)) in Es. rewrite length_skipn in Es.
            simpl in Es. lia. }
        rewrite take_exponent_none. f_equal.
        apply (number_of_decimal_eq neg 0 0); try assumption.
        -- rewrite firstn_skipn. simpl. rewrite app_nil_r. reflexivity.
        -- rewrite length_firstn. lia.
      * change (lit "0.") with (digits_text [d0] ++ lit ".").
        rewrite <- app_assoc, (span_digits_text _ _ (stops_point _)).
        rewrite <- digits_text_app.
        rewrite <- (app_nil_r (digits_text _)).
        rewrite take_fraction_printed; [| | exact I].
        2:{ destruct (canonical_inv ds Hc) as (d & ds' & -> & _).
            destruct (zeros (Z.to_nat (- n))); reflexivity. }
        rewrite take_exponent_none. cbn [int_ok]. f_equal.
        apply (number_of_decimal_eq neg (S (Z.to_nat (- n))) 0); try assumption.
        -- simpl. rewrite app_nil_r. reflexivity.
        -- simpl length. lia.
  - destruct (canonical_inv ds Hc) as (d & ds' & E & Hd & _). subst ds.
    destruct ds' as [|d' ds'].
    + change (digit_unit d :: lit "e" ++ ?r)
        with (digits_text [d] ++ lit "e" ++ r).
      rewrite (span_digits_text _ _ (stops_e _)). cbn [int_ok].
      change (lit "e" ++ ?r) with (101%N :: r) at 1.
      rewrite take_fraction_e.
      change (101%N :: ?r) with (lit "e" ++ r).
      rewrite take_exponent_printed. f_equal.
      apply (number_of_decimal_eq neg 0 0); try assumption.
      * reflexivity.
      * simpl length. lia.
    + change (digit_unit d :: lit "." ++ ?r)
        with (digits_text [d] ++ lit "." ++ r).
      rewrite (span_digits_text _ _ (stops_point _)). cbn [int_ok].
      rewrite take_fraction_printed; [|reflexivity|apply stops_e].
      rewrite take_exponent_printed. f_equal.
      apply (number_of_decimal_eq neg 0 0); try assumption.
      * simpl. rewrite app_nil_r. reflexivity.
      * simpl length. lia.
Qed.
Lemma finite_double_inv (neg : bool) (ds : list digits) (n : Z) :
  finite_double (Dec neg ds n) = true ->
  canonical ds = true /\ overflows ds n = false /\ underflows ds n = false.
Proof.
  cbn [finite_double]. intros H.
  apply andb_prop in H. destruct H as [H Hu].
  apply andb_prop in H. destruct H as [Hc Ho].
  split; [exact Hc|].
  split; [destruct (overflows ds n) | destruct (underflows ds n)];
    try reflexivity; discriminate.
Qed.

Lemma ToString_finite_head (ds : list digits) (n : Z) :
  canonical ds = true ->
  exists d t, ToString_finite ds n = digit_unit d :: t.
Proof.
  intros Hc. destruct (canonical_inv ds Hc) as (d & ds' & -> & _).
  unfold ToString_finite.
  destruct ((-5 <=? n) && (n <=? 21)).
  - destruct (Z.of_nat (length (d :: ds')) <=? n).
    + exists d. eexists. reflexivity.
    + destruct (Z.ltb_spec 0 n) as [Hn|Hn].
      * destruct (Z.to_nat n) as [|m] eqn:Em; [lia|].
        exists d. eexists. reflexivity.
      * exists d0. eexists. reflexivity.
  - destruct ds'; exists d; eexists; reflexivity.
Qed.

Lemma take_sign_digit (d : digits) (t : text) :
  take_sign (digit_unit d :: t) = (false, digit_unit d :: t).
Proof. destruct d; reflexivity. Qed.

(** Reading back what [Number::toString] wrote gives the same number. *)
Lemma parse_NumberToString (x : number) :
  finite_double x = true ->
  parse_number_literal (NumberToString x) = Some x.
Proof.
  destruct x as [|neg|neg|neg ds n]; try discriminate.
  - destruct neg; [discriminate | reflexivity].
  - intros H. destruct (finite_double_inv neg ds n H) as (Hc & Ho & Hu).
    pose proof (parse_unsigned_ToString neg ds n Hc Ho Hu) as Hp.
    destruct (ToString_finite_head ds n Hc) as (d & t & E).
    unfold parse_number_literal. destruct neg; simpl NumberToString.
    + change (lit "-" ++ ?r) with (45%N :: r). cbn [take_sign N.eqb Pos.eqb].
      exact Hp.
    + rewrite E, take_sign_digit, <- E. exact Hp.
Qed.

Lemma number_unit_digit (d : digits) : is_number_unit (digit_unit d) = true.
Proof. destruct d; reflexivity. Qed.

Lemma number_units_digits (ds : list digits) :
  Forall (fun c => is_number_unit c = true) (digits_text ds).
Proof.
  induction ds as [|d ds IH]; constructor; [apply number_unit_digit | exact IH].
Qed.

Lemma ToString_finite_units (ds : list digits) (n : Z) :
  Forall (fun c => is_number_unit c = true) (ToString_finite ds n).
Proof.
  assert (Hsign : forall e : Z,
             Forall (fun c => is_number_unit c = true)
               (if e <? 0 then lit "-" else lit "+")).
  { intros e. destruct (e <? 0); repeat constructor. }
  unfold ToString_finite.
  destruct ((-5 <=? n) && (n <=? 21)).
  - destruct (Z.of_nat (length ds) <=? n); [|destruct (0 <? n)];
      repeat (apply Forall_app; split);
      try apply number_units_digits; repeat constructor.
  - destruct ds as [|d [|d' ds']]; [constructor| |];
      (constructor; [apply number_unit_digit|]);
      repeat (apply Forall_app; split);
      try apply number_units_digits; try apply Hsign; repeat constructor.
Qed.

Lemma NumberToString_units (x : number) :
  finite_double x = true ->
  Forall (fun c => is_number_unit c = true) (NumberToString x).
Proof.
  destruct x as [|neg|neg|neg ds n]; try discriminate; intros _.
  - repeat constructor.
  - destruct neg; simpl; [constructor; [reflexivity|]|]; apply ToString_finite_units.
Qed.

(* ================================================================== *)
(** * The lexer on what JSON.stringify writes *)

Lemma lex_run_app (l : lexer) (a b : text) :
  lex_run l (a ++ b) = lex_run (lex_run l a) b.
Proof. apply fold_left_app. Qed.

Lemma lex_run_number (t : text) : forall (acc : text) (out : list token),
  Forall (fun c => is_number_unit c = true) t ->
  lex_run {| mode := InNumber acc; emitted := out |} t
  = {| mode := InNumber (rev t ++ acc); emitted := out |}.
Proof.
  induction t as [|c t IH]; intros acc out H; [reflexivity|].
  inversion H as [|c' t' Hc Ht]; subst.
  cbn [lex_run fold_left lex_step mode emitted]. rewrite Hc.
  change (fold_left lex_step t ?l) with (lex_run l t). rewrite (IH _ _ Ht).
  simpl rev. rewrite <- app_assoc. reflexivity.
Qed.

Lemma gap_step_number (x : number) (out : list token) :
  finite_double x = true ->
  exists c t, NumberToString x = c :: t
    /\ gap_step out c = {| mode := InNumber [c]; emitted := out |}.
Proof.
  destruct x as [|neg|neg|neg ds n]; try discriminate; intros H.
  - exists 48%N, []. split; reflexivity.
  - destruct (finite_double_inv neg ds n H) as (Hc & _).
    destruct neg; simpl NumberToString.
    + exists 45%N. eexists. split; reflexivity.
    + destruct (ToString_finite_head ds n Hc) as (d & t & E).
      exists (digit_unit d), t. split; [exact E|]. destruct d; reflexivity.
Qed.

(** A number ends where a code unit that no number contains begins. *)
Lemma lex_number (x : number) (out : list token) :
  finite_double x = true ->
  flush (lex_run {| mode := InGap; emitted := out |} (NumberToString x))
  = {| mode := InGap; emitted := TLit (VNum x) :: out |}.
Proof.
  intros H. destruct (gap_step_number x out H) as (c & t & E & Hg).
  pose proof (NumberToString_units x H) as Hu. rewrite E in Hu.
  inversion Hu as [|c' t' Hc Ht]; subst.
  rewrite E. cbn [lex_run fold_left lex_step mode emitted]. rewrite Hg.
  change (fold_left lex_step t ?l) with (lex_run l t).
  rewrite (lex_run_number t _ _ Ht). unfold flush. cbn [mode emitted].
  rewrite rev_app_distr, rev_involutive. change (rev [c] ++ t) with (c :: t).
  rewrite <- E, (parse_NumberToString x H). reflexivity.
Qed.

Lemma hex_value_unit (h : N) : (h < 16)%N -> hex_value (hex_unit h) = Some h.
Proof.
  intros H. destruct h as [|p]; [reflexivity|].
  do 5 (destruct p as [p|p|]; try reflexivity; try (cbv in H; discriminate H)).
Qed.

Lemma hex_digits_value (c : N) :
  (c < 65536)%N ->
  (16 * (16 * (16 * (16 * 0 + c / 4096 mod 16) + c / 256 mod 16)
         + c / 16 mod 16) + c mod 16)%N = c.
Proof.
  intros H.
  pose proof (N.div_mod c 16 ltac:(discriminate)) as H0.
  pose proof (N.div_mod (c / 16) 16 ltac:(discriminate)) as H1.
  pose proof (N.div_mod (c / 16 / 16) 16 ltac:(discriminate)) as H2.
  rewrite !N.Div0.div_div in H1, H2.
  change (16 * 16)%N with 256%N in *.
  rewrite N.Div0.div_div in H2. change (256 * 16)%N with 4096%N in *.
  assert (H3 : (c / 4096 < 16)%N).
  { apply N.Div0.div_lt_upper_bound. exact H. }
  rewrite (N.mod_small (c / 4096) 16 H3). lia.
Qed.

Lemma lex_raw_unit (c : code_unit) (acc : text) (out : list token) :
  (32 <= c)%N -> c <> 34%N -> c <> 92%N ->
  lex_step {| mode := InString acc; emitted := out |} c
  = {| mode := InString (c :: acc); emitted := out |}.
Proof.
  intros H32 H34 H92. cbn [lex_step mode emitted].
  destruct (N.eqb_spec c 34); [contradiction|].
  destruct (N.eqb_spec c 92); [contradiction|].
  destruct (N.ltb_spec c 32); [lia | reflexivity].
Qed.

Lemma lex_unicode_escape (c : code_unit) (acc : text) (out : list token)
    (rest : text) :
  (c < 65536)%N ->
  lex_run {| mode := InString acc; emitted := out |} (UnicodeEscape c ++ rest)
  = lex_run {| mode := InString (c :: acc); emitted := out |} rest.
Proof.
  intros H. unfold UnicodeEscape.
  cbn [app lex_run fold_left].
  repeat (cbn [lex_step mode emitted N.eqb Pos.eqb Nat.eqb];
          rewrite hex_value_unit by (apply N.mod_lt; discriminate)).
  cbn [lex_step mode emitted N.eqb Pos.eqb Nat.eqb].
  rewrite (hex_digits_value c H). reflexivity.
Qed.

Lemma lex_escape_unit (c : code_unit) (acc : text) (out : list token)
    (rest : text) :
  lex_run {| mode := InString acc; emitted := out |} (escape_unit c ++ rest)
  = lex_run {| mode := InString (c :: acc); emitted := out |} rest.
Proof.
  unfold escape_unit.
  repeat match goal with
         | |- context [ (c =? ?k)%N ] =>
             destruct (N.eqb_spec c k); [subst c; reflexivity|]
         end.
  destruct ((c <? 32)%N || is_leading_surrogate c || is_trailing_surrogate c)
    eqn:E.
  - apply lex_unicode_escape.
    unfold is_leading_surrogate, is_trailing_surrogate in E.
    apply orb_prop in E. destruct E as [E|E];
      [apply orb_prop in E; destruct E as [E|E]|].
    + apply N.ltb_lt in E. lia.
    + apply andb_prop in E. destruct E as [_ E]. apply N.leb_le in E. lia.
    + apply andb_prop in E. destruct E as [_ E]. apply N.leb_le in E. lia.
  - apply orb_false_elim in E. destruct E as [E _].
    apply orb_false_elim in E. destruct E as [E _]. apply N.ltb_ge in E.
    cbn [app lex_run fold_left]. rewrite lex_raw_unit by assumption.
    reflexivity.
Qed.

Lemma lex_surrogate_pair (c d : code_unit) (acc : text) (out : list token)
    (rest : text) :
  is_leading_surrogate c && is_trailing_surrogate d = true ->
  lex_run {| mode := InString acc; emitted := out |} (c :: d :: rest)
  = lex_run {| mode := InString (d :: c :: acc); emitted := out |} rest.
Proof.
  intros H. apply andb_prop in H. destruct H as [Hc Hd].
  unfold is_leading_surrogate in Hc. unfold is_trailing_surrogate in Hd.
  apply andb_prop in Hc. destruct Hc as [Hc _]. apply N.leb_le in Hc.
  apply andb_prop in Hd. destruct Hd as [Hd _]. apply N.leb_le in Hd.
  cbn [lex_run fold_left]. rewrite !lex_raw_unit by lia. reflexivity.
Qed.

Lemma quote_units_two (c d : code_unit) (s : text) :
  quote_units (c :: d :: s)
  = if is_leading_surrogate c && is_trailing_surrogate d
    then c :: d :: quote_units s
    else escape_unit c ++ quote_units (d :: s).
Proof. reflexivity. Qed.

Lemma lex_quote_units (n : nat) : forall (s acc : text) (out : list token)
    (rest : text),
  (length s <= n)%nat ->
  lex_run {| mode := InString acc; emitted := out |} (quote_units s ++ rest)
  = lex_run {| mode := InString (rev s ++ acc); emitted := out |} rest.
Proof.
  induction n as [|n IH]; intros s acc out rest Hlen.
  - destruct s; [reflexivity | simpl in Hlen; lia].
  - destruct s as [|c [|d s]]; [reflexivity | |].
    + cbn [quote_units]. apply lex_escape_unit.
    + rewrite quote_units_two.
      destruct (is_leading_surrogate c && is_trailing_surrogate d) eqn:E.
      * change ((c :: d :: quote_units s) ++ rest)
          with (c :: d :: (quote_units s ++ rest)).
        rewrite (lex_surrogate_pair c d acc out _ E).
        rewrite IH by (simpl in *; lia).
        simpl rev. rewrite <- !app_assoc. reflexivity.
      * rewrite <- app_assoc, lex_escape_unit.
        rewrite IH by (simpl in *; lia).
        simpl rev. rewrite <- !app_assoc. reflexivity.
Qed.

(** A quoted string is read back as the string. *)
Lemma lex_string (s : text) (out : list token) (rest : text) :
  lex_run {| mode := InGap; emitted := out |} (QuoteJSONString s ++ rest)
  = lex_run {| mode := InGap; emitted := TLit (VStr s) :: out |} rest.
Proof.
  unfold QuoteJSONString.
  change ((34%N :: quote_units s ++ [34%N]) ++ rest)
    with (34%N :: ((quote_units s ++ [34%N]) ++ rest)).
  rewrite <- app_assoc.
  cbn [lex_run fold_left lex_step mode emitted gap_step N.eqb Pos.eqb orb].
  change (fold_left lex_step ?t ?l) with (lex_run l t).
  rewrite (lex_quote_units (length s) s [] out _ (le_n _)).
  rewrite app_nil_r.
  cbn [app lex_run fold_left lex_step mode emitted N.eqb Pos.eqb].
  rewrite rev_involutive. reflexivity.
Qed.

(** Induction on values, with the hypothesis for every element and member. *)
Lemma value_induction (P : value -> Prop) :
  P VNull -> (forall b, P (VBool b)) -> (forall x, P (VNum x)) ->
  (forall s, P (VStr s)) ->
  (forall vs, Forall P vs -> P (VArr vs)) ->
  (forall ps, Forall (fun p => P (snd p)) ps -> P (VObj ps)) ->
  forall v, P v.
Proof.
  intros HNull HBool HNum HStr HArr HObj.
  fix IH 1. intros [|b|x|s|vs|ps].
  - exact HNull.
  - apply HBool.
  - apply HNum.
  - apply HStr.
  - apply HArr. induction vs as [|v vs IHvs]; constructor; [apply IH | exact IHvs].
  - apply HObj. induction ps as [|p ps IHps]; constructor; [apply IH | exact IHps].
Qed.

Lemma lex_step_delimiter (l : lexer) (c : code_unit) :
  c = 44%N \/ c = 58%N \/ c = 93%N \/ c = 125%N ->
  mode (flush l) = InGap ->
  lex_step l c = gap_step (emitted (flush l)) c.
Proof.
  intros Hc Hm. destruct l as [m out].
  destruct m; try discriminate Hm; [reflexivity|].
  assert (Hn : is_number_unit c = false)
    by (destruct Hc as [->|[->|[->| ->]]]; reflexivity).
  unfold lex_step. cbn [mode]. rewrite Hn, Hm. reflexivity.
Qed.

Lemma lexes_to_then (t : text) (ts : list token) (c : code_unit)
    (out : list token) (rest : text) :
  lexes_to t ts ->
  c = 44%N \/ c = 58%N \/ c = 93%N \/ c = 125%N ->
  lex_run {| mode := InGap; emitted := out |} (t ++ c :: rest)
  = lex_run (gap_step (rev ts ++ out) c) rest.
Proof.
  intros Ht Hc. rewrite lex_run_app.
  change (lex_run ?l (c :: rest)) with (lex_run (lex_step l c) rest).
  specialize (Ht out). rewrite lex_step_delimiter, Ht; [reflexivity|exact Hc|].
  rewrite Ht. reflexivity.
Qed.

Lemma lexes_to_nil : lexes_to [] [].
Proof. intros out. reflexivity. Qed.

Lemma lexes_join (parts : list text) (tss : list (list token)) :
  Forall2 lexes_to parts tss ->
  lexes_to (join (lit ",") parts) (separate tss).
Proof.
  induction 1 as [|p ts ps tss Hp Hps IH]; [apply lexes_to_nil|].
  destruct Hps as [|p2 ts2 ps tss Hp2 Hps]; [exact Hp|].
  intros out. cbn [join separate]. change (lit "," ++ ?r) with (44%N :: r).
  rewrite (lexes_to_then p ts 44%N out _ Hp) by auto.
  change (gap_step ?o 44%N) with {| mode := InGap; emitted := TComma :: o |}.
  rewrite IH. f_equal. rewrite rev_app_distr. cbn [rev].
  rewrite <- !app_assoc. reflexivity.
Qed.

Lemma lexes_enclosed (open close : code_unit) (topen tclose : token)
    (t : text) (ts : list token) :
  (forall out, gap_step out open = emit topen out) ->
  (forall out, gap_step out close = emit tclose out) ->
  close = 93%N \/ close = 125%N ->
  lexes_to t ts ->
  lexes_to (open :: t ++ [close]) (topen :: ts ++ [tclose]).
Proof.
  intros Ho Hc Hd Ht out.
  change (lex_run ?l (open :: ?r)) with (lex_run (lex_step l open) r).
  cbn [lex_step mode emitted]. rewrite Ho. unfold emit.
  rewrite (lexes_to_then t ts close _ [] Ht) by tauto.
  rewrite Hc. cbn [lex_run fold_left emit flush mode]. f_equal.
  cbn [rev]. rewrite rev_app_distr. cbn [rev app].
  rewrite <- app_assoc. reflexivity.
Qed.

Lemma lexes_member (k : text) (t : text) (ts : list token) :
  lexes_to t ts ->
  lexes_to (QuoteJSONString k ++ lit ":" ++ t) (TLit (VStr k) :: TColon :: ts).
Proof.
  intros Ht out. rewrite lex_string. change (lit ":" ++ t) with (58%N :: t).
  change (lex_run ?l (58%N :: t)) with (lex_run (lex_step l 58%N) t).
  cbn [lex_step mode emitted]. change (gap_step ?o 58%N) with (emit TColon o).
  unfold emit. rewrite Ht. f_equal. cbn [rev]. rewrite <- !app_assoc.
  reflexivity.
Qed.

Lemma finite_double_is_finite (x : number) :
  finite_double x = true -> is_finite x = true.
Proof. destruct x; try discriminate; reflexivity. Qed.

Lemma Forall2_map_both {A B C} (R : B -> C -> Prop) (f : A -> B) (g : A -> C)
    (l : list A) :
  Forall (fun a => R (f a) (g a)) l -> Forall2 R (map f l) (map g l).
Proof. induction 1; constructor; assumption. Qed.

(** The lexer reads the text of a plain value as the tokens of the value. *)
Lemma lex_value : forall v : value,
  plain v = true -> lexes_to (SerializeJSONProperty v) (tokens_of v).
Proof.
  induction v as [|b|x|s|vs IH|ps IH] using value_induction; intros Hp.
  - intros out. reflexivity.
  - intros out. destruct b; reflexivity.
  - intros out. cbn [SerializeJSONProperty tokens_of plain] in *.
    rewrite (finite_double_is_finite x Hp). apply lex_number. exact Hp.
  - intros out. cbn [SerializeJSONProperty tokens_of].
    rewrite <- (app_nil_r (QuoteJSONString s)), lex_string. reflexivity.
  - cbn [SerializeJSONProperty tokens_of plain] in *.
    change (lit "[" ++ ?t ++ lit "]") with (91%N :: t ++ [93%N]).
    apply lexes_enclosed; try reflexivity; [tauto|].
    apply lexes_join, Forall2_map_both.
    rewrite forallb_forall in Hp. rewrite Forall_forall in IH |- *.
    intros v Hv. apply IH; [exact Hv | apply Hp; exact Hv].
  - cbn [SerializeJSONProperty tokens_of plain] in *.
    apply andb_prop in Hp. destruct Hp as [_ Hp].
    change (lit "{" ++ ?t ++ lit "}") with (123%N :: t ++ [125%N]).
    apply lexes_enclosed; try reflexivity; [tauto|].
    apply lexes_join, Forall2_map_both.
    rewrite forallb_forall in Hp. rewrite Forall_forall in IH |- *.
    intros p Hin. apply lexes_member. apply IH; [exact Hin | apply Hp; exact Hin].
Qed.

(* ================================================================== *)
(** * The parser on the tokens of a value *)

Lemma distinct_keys_before (a b : list text) (k : text) :
  distinct_keys (a ++ k :: b) = true ->
  Forall (fun x => text_eqb x k = false) a.
Proof.
  induction a as [|x a IH]; intros H; [constructor|].
  cbn [app distinct_keys] in H. apply andb_prop in H. destruct H as [Hx Ha].
  constructor; [|apply IH; exact Ha].
  rewrite existsb_app in Hx. cbn [existsb] in Hx.
  destruct (text_eqb x k); [|reflexivity].
  rewrite orb_true_r in Hx. discriminate Hx.
Qed.

Lemma replace_property_fresh (ps : list (text * value)) (k : text) (v : value) :
  Forall (fun x => text_eqb x k = false) (map fst ps) ->
  replace_property ps k v = None.
Proof.
  induction ps as [|[k' v'] ps IH]; intros H; [reflexivity|].
  inversion H as [|x l Hx Hl]; subst. cbn [replace_property].
  cbn [fst] in Hx. rewrite Hx, (IH Hl). reflexivity.
Qed.

Lemma define_property_fresh (done rest : list (text * value)) (k : text)
    (v : value) :
  plain_keys (map fst (done ++ (k, v) :: rest)) = true ->
  define_property done k v = done ++ [(k, v)].
Proof.
  intros H. unfold plain_keys in H. apply andb_prop in H.
  destruct H as [Hidx Hdist]. rewrite map_app in Hidx, Hdist.
  cbn [map fst] in Hidx, Hdist.
  unfold define_property.
  rewrite (replace_property_fresh done k v (distinct_keys_before _ _ _ Hdist)).
  rewrite forallb_app in Hidx. apply andb_prop in Hidx. destruct Hidx as [_ Hk].
  cbn [forallb] in Hk. destruct (array_index k); [discriminate Hk | reflexivity].
Qed.

(** The elements of an array, after the first has been awaited. *)
Lemma parse_elements (vs : list value) : forall (v : value) (done : list value)
    (e : expect) (st : list frame) (rest : list token),
  Forall (fun v => parses_to (tokens_of v) v) (v :: vs) ->
  e = EValue \/ e = EValueOrEnd ->
  parse_run {| expecting := e; stack := InArr done :: st |}
    (separate (map tokens_of (v :: vs)) ++ TRBracket :: rest)
  = match complete (VArr (done ++ v :: vs)) st with
    | Some p => parse_run p rest
    | None => None
    end.
Proof.
  induction vs as [|v2 vs IH]; intros v done e st rest H He;
    inversion H as [|x l Hv Hvs]; subst.
  - cbn [map separate]. rewrite (Hv e _ _ He). reflexivity.
  - change (separate (map tokens_of (v :: v2 :: vs)))
      with (tokens_of v ++ TComma :: separate (map tokens_of (v2 :: vs))).
    rewrite <- app_assoc. rewrite (Hv e _ _ He). cbn [complete app parse_run parse_step expecting stack].
    rewrite (IH v2 (done ++ [v]) EValue st rest Hvs) by auto.
    rewrite <- app_assoc. reflexivity.
Qed.

(** The members of an object, after the first key has been awaited. *)
Lemma parse_members (ps : list (text * value)) : forall (p : text * value)
    (done : list (text * value)) (e : expect) (st : list frame)
    (rest : list token),
  Forall (fun p => parses_to (tokens_of (snd p)) (snd p)) (p :: ps) ->
  plain_keys (map fst (done ++ p :: ps)) = true ->
  e = EKey \/ e = EKeyOrEnd ->
  parse_run {| expecting := e; stack := InObj done :: st |}
    (separate (map member_tokens (p :: ps)) ++ TRBrace :: rest)
  = match complete (VObj (done ++ p :: ps)) st with
    | Some q => parse_run q rest
    | None => None
    end.
Proof.
  induction ps as [|p2 ps IH]; intros [k v] done e st rest H Hk He;
    inversion H as [|x l Hv Hvs]; subst; cbn [snd] in Hv.
  - cbn [map separate member_tokens fst snd app].
    assert (Hkey : parse_run {| expecting := e; stack := InObj done :: st |}
                     (TLit (VStr k) :: TColon :: tokens_of v ++ TRBrace :: rest)
                   = parse_run {| expecting := EValue;
                                  stack := InMember done k :: st |}
                       (tokens_of v ++ TRBrace :: rest))
      by (destruct He as [-> | ->]; reflexivity).
    rewrite Hkey, (Hv EValue _ _ (or_introl eq_refl)).
    cbn [complete]. rewrite (define_property_fresh done [] k v Hk).
    reflexivity.
  - change (separate (map member_tokens ((k, v) :: p2 :: ps)))
      with (TLit (VStr k) :: TColon :: tokens_of v
              ++ TComma :: separate (map member_tokens (p2 :: ps))).
    assert (Hkey : forall r,
               parse_run {| expecting := e; stack := InObj done :: st |}
                 ((TLit (VStr k) :: TColon :: tokens_of v ++ r))
               = parse_run {| expecting := EValue;
                              stack := InMember done k :: st |}
                   (tokens_of v ++ r))
      by (intros r; destruct He as [-> | ->]; reflexivity).
    cbn [app]. rewrite <- app_assoc, Hkey, (Hv EValue _ _ (or_introl eq_refl)).
    cbn [complete app parse_run parse_step expecting stack].
    rewrite (define_property_fresh done (p2 :: ps) k v Hk).
    rewrite (IH p2 (done ++ [(k, v)]) EKey st rest Hvs); [| |auto].
    + rewrite <- app_assoc. reflexivity.
    + rewrite <- app_assoc. exact Hk.
Qed.

(** The parser reads the tokens of a plain value as the value. *)
Lemma parse_value : forall v : value,
  plain v = true -> parses_to (tokens_of v) v.
Proof.
  induction v as [|b|x|s|vs IH|ps IH] using value_induction; intros Hp;
    try (intros e st rest [-> | ->]; cbn [tokens_of app parse_run parse_step
           expecting stack begin_value];
         destruct (complete _ st); reflexivity).
  - cbn [plain] in Hp. rewrite forallb_forall in Hp.
    assert (Hall : Forall (fun v => parses_to (tokens_of v) v) vs).
    { rewrite Forall_forall in IH |- *. intros v Hv.
      apply IH; [exact Hv | apply Hp; exact Hv]. }
    intros e st rest He. cbn [tokens_of]. rewrite <- app_comm_cons, <- app_assoc.
    assert (Hopen : forall r,
               parse_run {| expecting := e; stack := st |} (TLBracket :: r)
               = parse_run {| expecting := EValueOrEnd; stack := InArr [] :: st |} r)
      by (intros r; destruct He as [-> | ->]; reflexivity).
    rewrite Hopen. destruct vs as [|v vs].
    + reflexivity.
    + apply (parse_elements vs v [] EValueOrEnd st rest Hall). auto.
  - cbn [plain] in Hp. apply andb_prop in Hp. destruct Hp as [Hk Hp].
    rewrite forallb_forall in Hp.
    assert (Hall : Forall (fun p => parses_to (tokens_of (snd p)) (snd p)) ps).
    { rewrite Forall_forall in IH |- *. intros p Hin.
      apply IH; [exact Hin | apply Hp; exact Hin]. }
    intros e st rest He. cbn [tokens_of]. rewrite <- app_comm_cons, <- app_assoc.
    assert (Hopen : forall r,
               parse_run {| expecting := e; stack := st |} (TLBrace :: r)
               = parse_run {| expecting := EKeyOrEnd; stack := InObj [] :: st |} r)
      by (intros r; destruct He as [-> | ->]; reflexivity).
    rewrite Hopen. destruct ps as [|p ps].
    + reflexivity.
    + apply (parse_members ps p [] EKeyOrEnd st rest Hall); [exact Hk | auto].
Qed.

(** [JSON.parse] gives back every plain value that [JSON.stringify] wrote. *)
Lemma JSON_parse_stringify (v : value) :
  plain v = true -> JSON_parse (JSON_stringify v) = Some v.
Proof.
  intros Hp. unfold JSON_parse, JSON_stringify, lex.
  rewrite (lex_value v Hp []). cbn [mode emitted].
  rewrite app_nil_r, rev_involutive.
  rewrite <- (app_nil_r (tokens_of v)).
  rewrite (parse_value v Hp EValue [] [] (or_introl eq_refl)). reflexivity.
Qed.

(* ================================================================== *)
(** * Routes as JSON values *)

Lemma text_eqb_refl (t : text) : text_eqb t t = true.
Proof. unfold text_eqb. destruct (list_eq_dec N.eq_dec t t); congruence. Qed.

Lemma drop_zeros_length (r : list digits) :
  (length (drop_zeros r) <= length r)%nat.
Proof.
  induction r as [|d r IH]; simpl; [lia|]. destruct (is_d0 d); simpl; lia.
Qed.

Lemma drop_zeros_decompose (r : list digits) :
  r = zeros (length r - length (drop_zeros r)) ++ drop_zeros r.
Proof.
  induction r as [|d r IH]; [reflexivity|]. cbn [drop_zeros].
  destruct d; cbn [is_d0]; try (rewrite Nat.sub_diag; reflexivity).
  pose proof (drop_zeros_length r) as Hlen.
  cbn [length]. rewrite Nat.sub_succ_l by exact Hlen.
  cbn [zeros repeat app]. f_equal. exact IH.
Qed.

Lemma strip_trailing_zeros_decompose (ds : list digits) :
  ds = strip_trailing_zeros ds
       ++ zeros (length ds - length (strip_trailing_zeros ds)).
Proof.
  unfold strip_trailing_zeros. rewrite length_rev.
  rewrite <- (length_rev ds).
  rewrite <- (rev_zeros (length (rev ds) - length (drop_zeros (rev ds)))).
  rewrite <- rev_app_distr, <- drop_zeros_decompose, rev_involutive.
  reflexivity.
Qed.

Lemma strip_trailing_zeros_length (ds : list digits) :
  (length (strip_trailing_zeros ds) <= length ds)%nat.
Proof.
  unfold strip_trailing_zeros. rewrite length_rev, <- (length_rev ds).
  apply drop_zeros_length.
Qed.

Lemma digits_of_pos_value (p : positive) :
  digits_value (digits_of_pos p) = N.pos p.
Proof.
  unfold digits_value, digits_of_pos. rewrite of_list_to_list.
  apply DecimalPos.Unsigned.of_to.
Qed.

(** An integer id is read back from the number that stands for it. *)
Lemma Z_of_number_of_Z (z : Z) : Z_of_number (number_of_Z z) = Some z.
Proof.
  assert (H : forall neg p,
             Z_of_number (number_of_pos neg p)
             = Some (if neg then Z.neg p else Z.pos p)).
  { intros neg p. unfold number_of_pos, Z_of_number.
    pose proof (strip_trailing_zeros_length (digits_of_pos p)) as Hlen.
    destruct (Z.leb_spec (Z.of_nat (length (strip_trailing_zeros (digits_of_pos p))))
                (Z.of_nat (length (digits_of_pos p)))) as [_|Hgt]; [|lia].
    rewrite <- Nat2Z.inj_sub, Nat2Z.id by exact Hlen.
    rewrite <- strip_trailing_zeros_decompose, digits_of_pos_value.
    destruct neg; reflexivity. }
  destruct z as [|p|p]; [reflexivity | apply (H false) | apply (H true)].
Qed.

Lemma waypoints_of_values (ws : list Waypoint) :
  all_some waypoint_of_value (map waypoint_value ws) = Some ws.
Proof.
  induction ws as [|[lat lng] ws IH]; [reflexivity|].
  cbn [map all_some waypoint_value waypoint_of_value fst snd]. rewrite IH.
  reflexivity.
Qed.

Lemma route_of_route_value (r : Route) : route_of_value (route_value r) = Some r.
Proof.
  unfold route_value, route_of_value. rewrite !text_eqb_refl.
  cbn [andb]. rewrite Z_of_number_of_Z, waypoints_of_values.
  destruct r; reflexivity.
Qed.

Lemma routes_of_routes_value (rs : list Route) :
  routes_of_value (routes_value rs) = Some rs.
Proof.
  unfold routes_value, routes_of_value.
  induction rs as [|r rs IH]; [reflexivity|].
  cbn [map all_some]. rewrite route_of_route_value, IH. reflexivity.
Qed.

(** ** Integers among the doubles *)

Lemma digits_of_pos_head (p : positive) :
  exists d ds, digits_of_pos p = d :: ds /\ is_d0 d = false.
Proof.
  unfold digits_of_pos.
  assert (Hn : Pos.to_uint p = Decimal.unorm (Pos.to_uint p)).
  { rewrite <- (DecimalPos.Unsigned.to_of (Pos.to_uint p)).
    rewrite DecimalPos.Unsigned.of_to. reflexivity. }
  apply (f_equal to_list) in Hn. rewrite unorm_spec in Hn. unfold lunorm in Hn.
  destruct (lnzhead (to_list (Pos.to_uint p))) as [|d ds] eqn:E.
  - exfalso. apply (DecimalPos.Unsigned.to_uint_nonzero p).
    apply to_list_inj. exact Hn.
  - rewrite Hn. exists d, ds. split; [reflexivity|].
    destruct d; try reflexivity.
    exfalso. exact (lnzhead_neq_d0_head _ _ E).
Qed.

Lemma usize_of_list (ds : list digits) :
  DecimalPos.Unsigned.usize (of_list ds) = N.of_nat (length ds).
Proof.
  induction ds as [|d ds IH]; [reflexivity|].
  cbn [length]. rewrite Nat2N.inj_succ, <- IH. destruct d; reflexivity.
Qed.

(** A digit sequence that starts with a non-zero digit denotes at least
    [10^(length - 1)]. *)
Lemma digits_value_lower_bound (d : digits) (ds : list digits) :
  is_d0 d = false ->
  (10 ^ N.of_nat (length ds) <= digits_value (d :: ds))%N.
Proof.
  intros Hd. unfold digits_value.
  change (N.of_uint ?u) with (Pos.of_uint u).
  rewrite DecimalPos.Unsigned.of_uint_alt.
  rewrite <- usize_of_list.
  destruct d; try discriminate Hd; cbn [of_list]; unfold Decimal.rev;
    cbn [Decimal.revapp]; rewrite DecimalPos.Unsigned.of_lu_revapp;
    cbn [DecimalPos.Unsigned.of_lu]; nia.
Qed.

Lemma digits_of_pos_length (p : positive) (n : nat) :
  (N.pos p < 10 ^ N.of_nat n)%N -> (length (digits_of_pos p) <= n)%nat.
Proof.
  intros Hp. destruct (digits_of_pos_head p) as (d & ds & E & Hd).
  pose proof (digits_value_lower_bound d ds Hd) as Hlow.
  rewrite <- E, digits_of_pos_value in Hlow. rewrite E. cbn [length].
  destruct (Nat.le_gt_cases (S (length ds)) n) as [Hle|Hgt]; [exact Hle|].
  exfalso.
  assert (Hpow : (10 ^ N.of_nat n <= 10 ^ N.of_nat (length ds))%N)
    by (apply N.pow_le_mono_r; lia).
  lia.
Qed.

Lemma drop_zeros_head (r : list digits) :
  match drop_zeros r with
  | [] => True
  | d :: _ => is_d0 d = false
  end.
Proof.
  induction r as [|d r IH]; [exact I|]. cbn [drop_zeros].
  destruct (is_d0 d) eqn:E; [exact IH | exact E].
Qed.

Lemma drop_zeros_snoc (a : list digits) (d : digits) :
  is_d0 d = false -> drop_zeros (a ++ [d]) = drop_zeros a ++ [d].
Proof.
  intros Hd. induction a as [|x a IH]; cbn [app drop_zeros].
  - rewrite Hd. reflexivity.
  - destruct (is_d0 x); [exact IH | reflexivity].
Qed.

Lemma canonical_strip (d : digits) (ds : list digits) :
  is_d0 d = false -> canonical (strip_trailing_zeros (d :: ds)) = true.
Proof.
  intros Hd. unfold strip_trailing_zeros. cbn [rev].
  rewrite (drop_zeros_snoc _ d Hd), rev_app_distr. cbn [rev app].
  unfold canonical. rewrite Hd. cbn [negb andb].
  pose proof (drop_zeros_head (rev ds)) as Hh.
  destruct (drop_zeros (rev ds)) as [|x xs]; cbn [rev app].
  - cbn [last]. rewrite Hd. reflexivity.
  - rewrite app_comm_cons, last_last, Hh. reflexivity.
Qed.

(** The safe integers are finite doubles. *)
Lemma safe_integer_finite (z : Z) :
  safe_integer z = true -> finite_double (number_of_Z z) = true.
Proof.
  unfold safe_integer. intros Hz. apply Z.ltb_lt in Hz.
  assert (H : forall neg p, Z.pos p < 2 ^ 53 ->
                            finite_double (number_of_pos neg p) = true).
  { intros neg p Hp. unfold number_of_pos, finite_double.
    destruct (digits_of_pos_head p) as (d & ds & E & Hd).
    pose proof (canonical_strip d ds Hd) as Hc. rewrite <- E in Hc.
    assert (Hlen : (length (digits_of_pos p) <= 16)%nat).
    { apply digits_of_pos_length. change (10 ^ N.of_nat 16)%N with (10 ^ 16)%N.
      assert (2 ^ 53 < 10 ^ 16) by reflexivity. lia. }
    assert (Hpos : (1 <= length (digits_of_pos p))%nat)
      by (rewrite E; cbn [length]; lia).
    rewrite Hc. unfold overflows, underflows.
    destruct (Z.ltb_spec 309 (Z.of_nat (length (digits_of_pos p)))); [lia|].
    destruct (Z.ltb_spec (Z.of_nat (length (digits_of_pos p))) 309); [|lia].
    destruct (Z.ltb_spec (Z.of_nat (length (digits_of_pos p))) (-323)); [lia|].
    destruct (Z.ltb_spec (-323) (Z.of_nat (length (digits_of_pos p)))); [|lia].
    reflexivity. }
  destruct z as [|p|p]; [reflexivity | apply H; lia | apply H; lia].
Qed.

(** The template literal writes a positive id below [10^21] in decimal. *)
Lemma route_name_decimal (p : positive) :
  Z.pos p < 10 ^ 21 ->
  route_name (Z.pos p) = lit "Route " ++ digits_text (digits_of_pos p).
Proof.
  intros Hp. unfold route_name. f_equal.
  cbn [number_of_Z number_of_pos NumberToString]. unfold ToString_finite.
  assert (Hlen : (length (digits_of_pos p) <= 21)%nat).
  { apply digits_of_pos_length. change (10 ^ N.of_nat 21)%N with (10 ^ 21)%N.
    lia. }
  pose proof (strip_trailing_zeros_length (digits_of_pos p)) as Hk.
  destruct (Z.leb_spec (-5) (Z.of_nat (length (digits_of_pos p)))); [|lia].
  destruct (Z.leb_spec (Z.of_nat (length (digits_of_pos p))) 21); [|lia].
  cbn [andb].
  destruct (Z.leb_spec
              (Z.of_nat (length (strip_trailing_zeros (digits_of_pos p))))
              (Z.of_nat (length (digits_of_pos p)))); [|lia].
  rewrite <- digits_text_app, <- Nat2Z.inj_sub, Nat2Z.id by exact Hk.
  rewrite <- strip_trailing_zeros_decompose. reflexivity.
Qed.

(** The template literal writes an integer below [10^21] in absolute value
    as its decimal numeral. *)
Lemma NumberToString_integer (z : Z) :
  Z.abs z < 10 ^ 21 -> NumberToString (number_of_Z z) = decimal_text z.
Proof.
  assert (H : forall p, Z.pos p < 10 ^ 21 ->
                        ToString_finite (strip_trailing_zeros (digits_of_pos p))
                          (Z.of_nat (length (digits_of_pos p)))
                        = digits_text (digits_of_pos p)).
  { intros p Hp. pose proof (route_name_decimal p Hp) as E.
    unfold route_name in E. apply app_inv_head in E. exact E. }
  destruct z as [|p|p]; intros Hz; [reflexivity| |].
  - apply H. lia.
  - cbn [number_of_Z number_of_pos NumberToString decimal_text].
    rewrite H by lia. reflexivity.
Qed.

(** C4. With at least two waypoints, [handleSaveRoute] puts the in-progress
    route, as it is, at the end of the saved collection, starts a new
    in-progress route (id one more, name [Route ] followed by the new id as
    the template literal prints it, which is its decimal numeral below
    [10^21]; no description, no waypoints) and stops recording. *)
Theorem save_accepted (w : World) (r : draws) :
  (2 <= length (waypoints (currentRoute (ui w))))%nat ->
  let s := ui w in
  let s' := ui (fst (step w (SaveClick r))) in
  routes s' = routes s ++ [currentRoute s]
  /\ id (currentRoute s') = id (currentRoute s) + 1
  /\ name (currentRoute s')
     = lit "Route " ++ NumberToString (number_of_Z (id (currentRoute s')))
  /\ (Z.abs (id (currentRoute s')) < 10 ^ 21 ->
      name (currentRoute s')
      = lit "Route " ++ decimal_text (id (currentRoute s')))
  /\ description (currentRoute s') = []
  /\ waypoints (currentRoute s') = []
  /\ isRecording s' = false
  /\ snd (step w (SaveClick r)) = [].
Proof.
  intros H. unfold step, handleSaveRoute.
  destruct (Nat.ltb_spec (length (waypoints (currentRoute (ui w)))) 2);
    [lia|].
  cbn [fst snd ui routes currentRoute id name description waypoints
       isRecording].
  split; [reflexivity|]. split; [reflexivity|]. split; [reflexivity|].
  split; [|repeat split].
  intros Hid. unfold route_name. rewrite (NumberToString_integer _ Hid).
  reflexivity.
Qed.

Lemma plain_waypoints (ws : list Waypoint) :
  forallb (fun w => finite_double (fst w) && finite_double (snd w)) ws = true ->
  forallb plain (map waypoint_value ws) = true.
Proof.
  induction ws as [|w ws IH]; [reflexivity|]. cbn [forallb map].
  intros H. apply andb_prop in H. destruct H as [Hw Hws].
  apply andb_prop in Hw. destruct Hw as [Hlat Hlng].
  rewrite (IH Hws). cbn [waypoint_value plain forallb].
  rewrite Hlat, Hlng. reflexivity.
Qed.

Lemma plain_route (r : Route) :
  finite_route r = true -> plain (route_value r) = true.
Proof.
  unfold finite_route. intros H. apply andb_prop in H. destruct H as [Hid Hws].
  unfold route_value. cbn [plain map fst snd forallb].
  rewrite (safe_integer_finite _ Hid), (plain_waypoints _ Hws). reflexivity.
Qed.

Lemma plain_routes (rs : list Route) :
  forallb finite_route rs = true -> plain (routes_value rs) = true.
Proof.
  unfold routes_value. cbn [plain].
  induction rs as [|r rs IH]; [reflexivity|]. cbn [forallb map].
  intros H. apply andb_prop in H. destruct H as [Hr Hrs].
  rewrite (plain_route r Hr), (IH Hrs). reflexivity.
Qed.

Lemma stringify_routes_nonempty (rs : list Route) :
  exists c t, JSON_stringify (routes_value rs) = c :: t.
Proof. eexists. eexists. reflexivity. Qed.

Lemma getItem_setItem (k v : text) (st : Storage) :
  getItem k (setItem k v st) = Some v.
Proof. unfold getItem, setItem. rewrite text_eqb_refl. reflexivity. Qed.

(* ================================================================== *)
(** * Persistence *)

(** What the second effect stored is, at the next mount, the saved
    collection again. *)
Lemma mount_persisted (rs : list Route) (c : draws) (st : Storage) :
  forallb finite_route rs = true ->
  exists w, mount c (persist_effect rs st) = Mounted w /\ routes (ui w) = rs.
Proof.
  intros H.
  pose proof (JSON_parse_stringify _ (plain_routes rs H)) as Hparse.
  unfold mount, load_effect, persist_effect. rewrite getItem_setItem.
  destruct (stringify_routes_nonempty rs) as (u & t & E).
  rewrite E in Hparse |- *. rewrite Hparse, routes_of_routes_value.
  eexists. split; reflexivity.
Qed.

(** An event that changes the saved collection stores its serialization
    under the key. *)
Lemma change_is_persisted (w : World) (e : event) :
  routes (ui (fst (step w e))) <> routes (ui w) ->
  getItem storage_key (localStorage (fst (step w e)))
  = Some (JSON_stringify (routes_value (routes (ui (fst (step w e)))))).
Proof.
  destruct e as [lat lng| |c|routeId|f v|sel]; cbn [step fst].
  - unfold handleAddWaypoint. destruct (isRecording (ui w)); intros H;
      exfalso; apply H; reflexivity.
  - intros H. exfalso. apply H. reflexivity.
  - destruct (handleSaveRoute c (ui w)) as [m|s']; cbn [fst ui localStorage].
    + intros H. exfalso. apply H. reflexivity.
    + intros _. apply getItem_setItem.
  - intros _. apply getItem_setItem.
  - intros H. exfalso. apply H. reflexivity.
  - intros H. exfalso. apply H. reflexivity.
Qed.

(** After an event that changed the saved collection, a reload brings the
    collection back. *)
Lemma reload_after_change (w : World) (e : event) (c : draws) :
  routes (ui (fst (step w e))) <> routes (ui w) ->
  forallb finite_route (routes (ui (fst (step w e)))) = true ->
  exists w', mount c (localStorage (fst (step w e))) = Mounted w'
             /\ routes (ui w') = routes (ui (fst (step w e))).
Proof.
  intros Hchange Hfin.
  destruct e as [lat lng| |d|routeId|f v|sel]; cbn [step fst] in *;
    try (exfalso; apply Hchange; reflexivity).
  - exfalso. apply Hchange. unfold handleAddWaypoint.
    destruct (isRecording (ui w)); reflexivity.
  - destruct (handleSaveRoute d (ui w)) as [m|s']; cbn [fst ui localStorage] in *.
    + exfalso. apply Hchange. reflexivity.
    + apply mount_persisted. exact Hfin.
  - apply mount_persisted. exact Hfin.
Qed.

(** The component mounted where nothing is stored has no saved route. *)
Lemma mount_without_stored_value (c : draws) (st : Storage) :
  getItem storage_key st = None ->
  mount c st
  = Mounted {| ui := initialState c; localStorage := persist_effect [] st |}
  /\ saved_ok (initialState c).
Proof.
  intros H. unfold mount, load_effect. rewrite H.
  split; [reflexivity | constructor].
Qed.

(** C8, as the code has it.  For a saved collection whose numbers are finite
    doubles other than [-0], what [JSON.stringify] writes is read back by
    [JSON.parse] as the same value, which is the same collection: ids, names,
    colors, descriptions and waypoints in order.  So the text the second
    effect stores is loaded, on the next mount, as the collection that was
    saved. *)
Theorem persistence_round_trip (rs : list Route) (c : draws) (st : Storage) :
  forallb finite_route rs = true ->
  JSON_parse (JSON_stringify (routes_value rs)) = Some (routes_value rs)
  /\ routes_of_value (routes_value rs) = Some rs
  /\ exists w, mount c (persist_effect rs st) = Mounted w /\ routes (ui w) = rs.
Proof.
  intros H. split; [|split].
  - apply JSON_parse_stringify, plain_routes, H.
  - apply routes_of_routes_value.
  - apply mount_persisted, H.
Qed.

(** C1, as the code has it.  When nothing, or the empty string, is stored
    under the key, the component mounts with an empty saved collection.  Any
    other stored text goes to [JSON.parse] unguarded: if it is not JSON the
    SyntaxError leaves the effect and the mount fails; if it is JSON the
    parsed value is passed to [setRoutes], and becomes the saved collection
    when it is a route collection. *)
Theorem load_outcomes (c : draws) (st : Storage) :
  match getItem storage_key st with
  | None | Some [] =>
      exists w, mount c st = Mounted w /\ routes (ui w) = []
  | Some savedRoutes =>
      match JSON_parse savedRoutes with
      | None =>
          load_effect st = Throw SyntaxError
          /\ mount c st = Crashed SyntaxError
      | Some v =>
          load_effect st = Normal (Some v)
          /\ match routes_of_value v with
             | Some rs => exists w, mount c st = Mounted w /\ routes (ui w) = rs
             | None => mount c st = Untyped v
             end
      end
  end.
Proof.
  unfold mount, load_effect.
  destruct (getItem storage_key st) as [[|u t]|].
  - eexists. split; reflexivity.
  - destruct (JSON_parse (u :: t)) as [v|]; [|split; reflexivity].
    split; [reflexivity|].
    destruct (routes_of_value v) as [rs|]; [|reflexivity].
    eexists. split; reflexivity.
  - eexists. split; reflexivity.
Qed.

(* ================================================================== *)
(** * The claims at concrete inputs *)

(** The scenario of the specification: no saved route, recording on, two
    clicks, save. *)
Example scenario_record_and_save :
  let w := fst (step recorded_world (SaveClick sample_draws)) in
  routes (ui w) = [sample_route]
  /\ map waypoints (routes (ui w)) = [[click_a; click_b]]
  /\ id (currentRoute (ui w)) = 2
  /\ name (currentRoute (ui w)) = lit "Route 2"
  /\ isRecording (ui w) = false.
Proof. vm_compute. repeat split. Qed.

(** The scenario with a single click: the save is refused and nothing is
    saved. *)
Example scenario_one_click :
  let w := run fresh_world (ToggleClick :: clicks [click_a]) in
  step w (SaveClick sample_draws) = (w, [validation_message])
  /\ routes (ui w) = [].
Proof. split; reflexivity. Qed.

(** The scenario with two saved routes: deleting id 1 leaves the route with
    id 2 and clears the selection. *)
Example scenario_delete_first :
  let w := run fresh_world
             (ToggleClick :: clicks [click_a; click_b]
                ++ [SaveClick sample_draws; ToggleClick]
                ++ clicks [click_b; click_a]
                ++ [SaveClick sample_draws; SelectClick sample_route;
                    DeleteClick 1]) in
  map id (routes (ui w)) = [2] /\ selectedRoute (ui w) = None.
Proof. split; reflexivity. Qed.

(** The ids of the sample session: 2 and 3, although route 1 was deleted. *)
Example sample_session_ids : created_ids fresh_world sample_session = [2; 3].
Proof. reflexivity. Qed.

Lemma delete_absent_id_witness :
  (forall r, In r (routes (ui selected_world)) -> id r <> 7)
  /\ handleDeleteRoute 7 (ui selected_world)
     = setSelectedRoute None (ui selected_world).
Proof.
  assert (H : forall r, In r (routes (ui selected_world)) -> id r <> 7).
  { intros r [<-|[]]. simpl. lia. }
  split; [exact H | exact (proj1 (delete_absent_id selected_world 7 H))].
Defined.

(** C2 as stated fails: deleting the absent id 7 while [sample_route] is
    selected changes the state, because the selection is cleared. *)
Lemma delete_absent_id_changes_state :
  (forall r, In r (routes (ui selected_world)) -> id r <> 7)
  /\ selectedRoute (ui selected_world) = Some sample_route
  /\ selectedRoute (handleDeleteRoute 7 (ui selected_world)) = None
  /\ handleDeleteRoute 7 (ui selected_world) <> ui selected_world.
Proof.
  split; [intros r [<-|[]]; simpl; lia|].
  split; [reflexivity|]. split; [reflexivity|].
  intros H. apply (f_equal selectedRoute) in H. discriminate H.
Qed.

Lemma save_rejected_witness :
  (length (waypoints (currentRoute (ui fresh_world))) < 2)%nat
  /\ step fresh_world (SaveClick sample_draws)
     = (fresh_world, [validation_message]).
Proof.
  assert (H : (length (waypoints (currentRoute (ui fresh_world))) < 2)%nat)
    by (simpl; lia).
  split; [exact H | exact (proj2 (save_rejected fresh_world sample_draws H))].
Defined.

Lemma save_accepted_witness :
  (2 <= length (waypoints (currentRoute (ui recorded_world))))%nat
  /\ routes (ui (fst (step recorded_world (SaveClick sample_draws))))
     = routes (ui recorded_world) ++ [currentRoute (ui recorded_world)]
  /\ Z.abs (id (currentRoute
                  (ui (fst (step recorded_world (SaveClick sample_draws))))))
     < 10 ^ 21
  /\ name (currentRoute
             (ui (fst (step recorded_world (SaveClick sample_draws)))))
     = lit "Route 2".
Proof.
  assert (H : (2 <= length (waypoints (currentRoute (ui recorded_world))))%nat)
    by (simpl; lia).
  assert (Hid : Z.abs (id (currentRoute
                  (ui (fst (step recorded_world (SaveClick sample_draws))))))
                < 10 ^ 21) by (vm_compute; reflexivity).
  split; [exact H|].
  split; [exact (proj1 (save_accepted recorded_world sample_draws H))|].
  split; [exact Hid|].
  exact (proj1 (proj2 (proj2 (proj2
           (save_accepted recorded_world sample_draws H)))) Hid).
Defined.

Lemma ids_never_reused_witness :
  mount sample_draws empty_storage = Mounted fresh_world
  /\ StronglySorted Z.lt (1 :: created_ids fresh_world sample_session).
Proof.
  assert (H : mount sample_draws empty_storage = Mounted fresh_world)
    by reflexivity.
  split; [exact H|].
  exact (proj1 (proj2 (ids_never_reused sample_draws empty_storage fresh_world
                         sample_session H))).
Defined.

Lemma saved_routes_have_two_waypoints_witness :
  saved_ok (ui fresh_world) /\ saved_ok (ui (run fresh_world sample_session)).
Proof.
  assert (H : saved_ok (ui fresh_world)) by (unfold saved_ok; simpl; constructor).
  split; [exact H|].
  exact (proj1 (saved_routes_have_two_waypoints fresh_world sample_session H)).
Defined.

Lemma clicks_append_in_order_witness :
  isRecording (ui (fst (step fresh_world ToggleClick))) = true
  /\ waypoints (currentRoute (ui recorded_world)) = [] ++ [click_a; click_b]
  /\ isRecording (ui fresh_world) = false
  /\ step fresh_world (MapClick (fst click_a) (snd click_a)) = (fresh_world, []).
Proof.
  assert (Hrec : isRecording (ui (fst (step fresh_world ToggleClick))) = true)
    by reflexivity.
  assert (Hidle : isRecording (ui fresh_world) = false) by reflexivity.
  split; [exact Hrec|]. split.
  - exact (proj1 (proj1 (clicks_append_in_order
                           (fst (step fresh_world ToggleClick))
                           [click_a; click_b]) Hrec)).
  - split; [exact Hidle|].
    exact (proj2 (clicks_append_in_order fresh_world []) Hidle
             (fst click_a) (snd click_a)).
Defined.

Lemma persistence_round_trip_witness :
  forallb finite_route [sample_route] = true
  /\ JSON_parse (JSON_stringify (routes_value [sample_route]))
     = Some (routes_value [sample_route]).
Proof.
  assert (H : forallb finite_route [sample_route] = true)
    by (vm_compute; reflexivity).
  split; [exact H|].
  exact (proj1 (persistence_round_trip [sample_route] sample_draws
                  empty_storage H)).
Defined.

(** A stored text can bring [Infinity] into the saved collection. *)
Lemma load_overflow :
  mount sample_draws (setItem storage_key stored_overflow empty_storage)
  = Mounted
      {| ui := {| routes := [infinite_route];
                  currentRoute := currentRoute (initialState sample_draws);
                  isRecording := false;
                  selectedRoute := None |};
         localStorage :=
           persist_effect [infinite_route]
             (persist_effect []
                (setItem storage_key stored_overflow empty_storage)) |}.
Proof. reflexivity. Qed.

(** C8 as stated fails: a collection with the coordinate [Infinity] is
    written with [null] in its place, and what is read back is another
    value, not a route collection. *)
Lemma round_trip_loses_infinity :
  JSON_stringify (routes_value [infinite_route])
  = lit "[{" ++ QuoteJSONString (lit "id") ++ lit ":1,"
      ++ QuoteJSONString (lit "name") ++ lit ":" ++ QuoteJSONString (lit "a")
      ++ lit "," ++ QuoteJSONString (lit "color") ++ lit ":"
      ++ QuoteJSONString (lit "#000000") ++ lit ","
      ++ QuoteJSONString (lit "description") ++ lit ":"
      ++ QuoteJSONString [] ++ lit ","
      ++ QuoteJSONString (lit "waypoints") ++ lit ":[[null,0],[0,0]]}]"
  /\ JSON_parse (JSON_stringify (routes_value [infinite_route]))
     <> Some (routes_value [infinite_route])
  /\ (exists v,
        mount sample_draws (persist_effect [infinite_route] empty_storage)
        = Untyped v).
Proof.
  split; [reflexivity|]. split.
  - vm_compute. discriminate.
  - eexists. vm_compute. reflexivity.
Qed.

(** C1 as stated fails: with a stored text that is not JSON, [JSON.parse]
    throws inside the effect and the component does not mount. *)
Lemma load_malformed_crashes :
  JSON_parse (lit "{") = None
  /\ load_effect (setItem storage_key (lit "{") empty_storage)
     = Throw SyntaxError
  /\ mount sample_draws (setItem storage_key (lit "{") empty_storage)
     = Crashed SyntaxError.
Proof. repeat split. Qed.

(* ================================================================== *)
(** * Further properties of the component *)

(** ** getRandomColor *)

Lemma letter_in_letters (i : N) : In (letter i) letters.
Proof.
  unfold letter. apply nth_In.
  assert (H : (i mod 16 < 16)%N) by (apply N.mod_lt; discriminate).
  change (length letters) with 16%nat. lia.
Qed.

(** X1. Whatever [Math.random] returns, [getRandomColor] gives a number sign
    followed by exactly six of the sixteen uppercase hexadecimal digits. *)
Theorem getRandomColor_format (r : draws) :
  exists hex, getRandomColor r = 35%N :: hex
              /\ length hex = 6%nat
              /\ Forall (fun u => In u letters) hex.
Proof.
  destruct r as [[[[[r0 r1] r2] r3] r4] r5]. eexists. split; [reflexivity|].
  split; [reflexivity|].
  repeat (apply Forall_cons; [apply letter_in_letters|]). apply Forall_nil.
Qed.

(** ** handleRouteInfoChange *)

Lemma edit_step (w : World) (f : info_field) (v : text) :
  let w' := fst (step w (InfoChange f v)) in
  routes (ui w') = routes (ui w)
  /\ isRecording (ui w') = isRecording (ui w)
  /\ selectedRoute (ui w') = selectedRoute (ui w)
  /\ localStorage w' = localStorage w
  /\ id (currentRoute (ui w')) = id (currentRoute (ui w))
  /\ color (currentRoute (ui w')) = color (currentRoute (ui w))
  /\ waypoints (currentRoute (ui w')) = waypoints (currentRoute (ui w))
  /\ name (currentRoute (ui w'))
     = (if same_field f name_field then v else name (currentRoute (ui w)))
  /\ description (currentRoute (ui w'))
     = (if same_field f description_field then v
        else description (currentRoute (ui w))).
Proof. destruct f; cbn; repeat split. Qed.

(** X2. A run of edits of the two inputs leaves the in-progress route with
    the last name and the last description typed (the old ones when none
    was), and touches nothing else: not its id, color or waypoints, not the
    saved routes, the flag, the selection or the storage. *)
Theorem edits_last_write_wins (l : list (info_field * text)) : forall w : World,
  let w' := run w (edits l) in
  name (currentRoute (ui w'))
  = last_edit name_field l (name (currentRoute (ui w)))
  /\ description (currentRoute (ui w'))
     = last_edit description_field l (description (currentRoute (ui w)))
  /\ id (currentRoute (ui w')) = id (currentRoute (ui w))
  /\ color (currentRoute (ui w')) = color (currentRoute (ui w))
  /\ waypoints (currentRoute (ui w')) = waypoints (currentRoute (ui w))
  /\ routes (ui w') = routes (ui w)
  /\ isRecording (ui w') = isRecording (ui w)
  /\ selectedRoute (ui w') = selectedRoute (ui w)
  /\ localStorage w' = localStorage w.
Proof.
  induction l as [|[f v] l IH]; intros w; [cbn; repeat split|].
  destruct (edit_step w f v) as (Hr & Hrec & Hsel & Hst & Hid & Hc & Hw & Hn & Hd).
  specialize (IH (fst (step w (InfoChange f v)))).
  destruct IH as (In & Id & Iid & Ic & Iw & Ir & Irec & Isel & Ist).
  change (run w (edits ((f, v) :: l)))
    with (run (fst (step w (InfoChange f v))) (edits l)).
  cbv zeta. cbn [last_edit fold_left fst snd].
  change (fold_left ?g l ?a) with (last_edit name_field l a) at 1.
  rewrite In, Id, Iid, Ic, Iw, Ir, Irec, Isel, Ist, Hn, Hd, Hid, Hc, Hw, Hr,
    Hrec, Hsel, Hst.
  repeat split.
Qed.

(** ** handleDeleteRoute *)

Lemma filter_comm {A} (f g : A -> bool) (l : list A) :
  filter f (filter g l) = filter g (filter f l).
Proof.
  induction l as [|a l IH]; [reflexivity|]. cbn [filter].
  destruct (f a) eqn:Ef, (g a) eqn:Eg; cbn [filter]; rewrite ?Ef, ?Eg, IH;
    reflexivity.
Qed.

Lemma filter_idem {A} (f : A -> bool) (l : list A) :
  filter f (filter f l) = filter f l.
Proof.
  induction l as [|a l IH]; [reflexivity|]. cbn [filter].
  destruct (f a) eqn:Ef; cbn [filter]; rewrite ?Ef, IH; reflexivity.
Qed.

(** X3. [handleDeleteRoute] removes the saved routes that carry the id, all
    of them, and no other: a route is saved afterwards exactly when it was
    saved before and has another id.  Deleting the same id again changes
    nothing more, and two deletions give the same state in either order. *)
Theorem delete_removes_the_id (s : State) (i j : Z) :
  (forall r, In r (routes (handleDeleteRoute i s))
             <-> In r (routes s) /\ id r <> i)
  /\ handleDeleteRoute i (handleDeleteRoute i s) = handleDeleteRoute i s
  /\ handleDeleteRoute i (handleDeleteRoute j s)
     = handleDeleteRoute j (handleDeleteRoute i s).
Proof.
  split; [|split].
  - intros r. cbn [handleDeleteRoute routes]. rewrite filter_In.
    destruct (Z.eqb_spec (id r) i); cbn [negb]; intuition congruence.
  - unfold handleDeleteRoute. cbn [routes currentRoute isRecording selectedRoute].
    rewrite filter_idem. reflexivity.
  - unfold handleDeleteRoute. cbn [routes currentRoute isRecording selectedRoute].
    rewrite filter_comm. reflexivity.
Qed.

(** ** Ids of the saved routes *)

Lemma StronglySorted_filter (f : Z -> bool) (l : list Z) :
  StronglySorted Z.lt l -> StronglySorted Z.lt (filter f l).
Proof.
  induction 1 as [|a l Hs IH Hf]; [constructor|]. cbn [filter].
  destruct (f a); [|exact IH].
  constructor; [exact IH|]. rewrite Forall_forall in Hf |- *.
  intros x Hx. apply filter_In in Hx. apply Hf, Hx.
Qed.

Lemma StronglySorted_snoc (l : list Z) (a : Z) :
  StronglySorted Z.lt l -> Forall (fun x => x < a) l ->
  StronglySorted Z.lt (l ++ [a]).
Proof.
  induction 1 as [|b l Hs IH Hf]; intros Ha; cbn [app].
  - constructor; constructor.
  - inversion Ha as [|x y Hb Hl]; subst.
    constructor; [apply IH; exact Hl|].
    apply Forall_app. split; [exact Hf|]. constructor; [exact Hb|constructor].
Qed.

Lemma map_filter_id (i : Z) (rs : list Route) :
  map id (filter (fun route => negb (id route =? i)) rs)
  = filter (fun x => negb (x =? i)) (map id rs).
Proof.
  induction rs as [|r rs IH]; [reflexivity|]. cbn [filter map].
  destruct (id r =? i); cbn [negb map]; rewrite IH; reflexivity.
Qed.

Lemma step_ids_ok (w : World) (e : event) :
  ids_ok (ui w) -> ids_ok (ui (fst (step w e))).
Proof.
  unfold ids_ok. intros [Hs Hb].
  destruct e as [lat lng| |c|routeId|f v|sel]; cbn [step fst ui].
  - unfold handleAddWaypoint. destruct (isRecording (ui w)); split; assumption.
  - split; assumption.
  - unfold handleSaveRoute.
    destruct (length (waypoints (currentRoute (ui w))) <? 2)%nat;
      cbn [fst ui routes currentRoute id]; [split; assumption|].
    split.
    + rewrite map_app. apply StronglySorted_snoc; [exact Hs|].
      rewrite Forall_map. exact Hb.
    + apply Forall_app. split.
      * eapply Forall_impl; [|exact Hb]. intros r Hr. cbn beta in Hr. lia.
      * constructor; [lia|constructor].
  - cbn [handleDeleteRoute routes currentRoute]. split.
    + rewrite map_filter_id. apply StronglySorted_filter. exact Hs.
    + rewrite Forall_forall in Hb |- *. intros r Hr. apply filter_In in Hr.
      apply Hb, Hr.
  - destruct f; split; assumption.
  - split; assumption.
Qed.

Lemma run_ids_ok (es : list event) : forall w : World,
  ids_ok (ui w) -> ids_ok (ui (run w es)).
Proof.
  induction es as [|e es IH]; intros w H; [exact H|].
  apply IH, step_ids_ok, H.
Qed.

Lemma StronglySorted_lt_NoDup (l : list Z) :
  StronglySorted Z.lt l -> NoDup l.
Proof.
  induction 1 as [|a l Hs IH Hf]; constructor; [|exact IH].
  intros Hin. rewrite Forall_forall in Hf. specialize (Hf a Hin). lia.
Qed.

(** X4. In a session that starts with no saved route, whatever the events,
    no two saved routes have the same id: the ids grow along the saved
    collection and are all below the id of the in-progress route. *)
Theorem saved_ids_unique (w : World) (es : list event) :
  routes (ui w) = [] ->
  ids_ok (ui (run w es)) /\ NoDup (map id (routes (ui (run w es)))).
Proof.
  intros He.
  assert (H : ids_ok (ui (run w es))).
  { apply run_ids_ok. unfold ids_ok. rewrite He. split; constructor. }
  split; [exact H | apply StronglySorted_lt_NoDup, H].
Qed.

Lemma filter_unique_id (rs : list Route) (r : Route) :
  NoDup (map id rs) -> In r rs ->
  S (length (filter (fun route => negb (id route =? id r)) rs)) = length rs.
Proof.
  induction rs as [|a rs IH]; intros Hnd Hin; [destruct Hin|].
  cbn [map] in Hnd. inversion Hnd as [|x l Hnotin Hnd']; subst.
  cbn [filter length]. destruct Hin as [->|Hin].
  - rewrite Z.eqb_refl. cbn [negb]. f_equal.
    rewrite filter_keeps_all; [reflexivity|].
    intros r' Hr' E. apply Hnotin. rewrite <- E. apply in_map. exact Hr'.
  - destruct (Z.eqb_spec (id a) (id r)) as [E|_]; cbn [negb length].
    + exfalso. apply Hnotin. rewrite E. apply in_map. exact Hin.
    + f_equal. apply IH; assumption.
Qed.

(** X5. In such a session, deleting the id of a saved route removes that
    route and no other: the saved collection gets shorter by exactly one. *)
Theorem delete_removes_one (w : World) (es : list event) (r : Route) :
  routes (ui w) = [] ->
  In r (routes (ui (run w es))) ->
  let s' := ui (fst (step (run w es) (DeleteClick (id r)))) in
  S (length (routes s')) = length (routes (ui (run w es)))
  /\ forall r', In r' (routes s') <-> In r' (routes (ui (run w es))) /\ r' <> r.
Proof.
  intros He Hin.
  assert (Hok : ids_ok (ui (run w es))).
  { apply run_ids_ok. unfold ids_ok. rewrite He. split; constructor. }
  pose proof (StronglySorted_lt_NoDup _ (proj1 Hok)) as Hnd.
  cbn [step fst ui handleDeleteRoute routes]. split.
  - apply filter_unique_id; assumption.
  - intros r'. rewrite filter_In. split.
    + intros [Hin' Hne]. split; [exact Hin'|]. intros ->.
      rewrite Z.eqb_refl in Hne. discriminate Hne.
    + intros [Hin' Hne]. split; [exact Hin'|].
      destruct (Z.eqb_spec (id r') (id r)) as [E|_]; [|reflexivity].
      exfalso. apply Hne. clear Hne.
      revert Hnd Hin Hin' E. generalize (routes (ui (run w es))).
      induction l as [|a l IH]; intros Hnd H1 H2 E; [destruct H1|].
      cbn [map] in Hnd. inversion Hnd as [|x y Hnotin Hnd']; subst.
      destruct H1 as [->|H1], H2 as [->|H2]; [reflexivity| | |].
      * exfalso. apply Hnotin. rewrite <- E. apply in_map. exact H2.
      * exfalso. apply Hnotin. rewrite E. apply in_map. exact H1.
      * apply IH; assumption.
Qed.

(** ** The storage along a session *)

Lemma mount_synced (c : draws) (st : Storage) (w : World) :
  mount c st = Mounted w -> synced w.
Proof.
  unfold mount, synced. destruct (load_effect st) as [[v|]|e]; [| |discriminate].
  - destruct (routes_of_value v) as [rs|]; [|discriminate].
    intros H. inversion H. apply getItem_setItem.
  - intros H. inversion H. apply getItem_setItem.
Qed.

Lemma step_synced (w : World) (e : event) :
  synced w -> synced (fst (step w e)).
Proof.
  unfold synced. intros H.
  destruct e as [lat lng| |c|routeId|f v|sel]; cbn [step fst ui localStorage].
  - unfold handleAddWaypoint. destruct (isRecording (ui w)); exact H.
  - exact H.
  - destruct (handleSaveRoute c (ui w)) as [m|s']; cbn [fst ui localStorage];
      [exact H | apply getItem_setItem].
  - apply getItem_setItem.
  - exact H.
  - exact H.
Qed.

Lemma run_synced (es : list event) : forall w : World,
  synced w -> synced (run w es).
Proof.
  induction es as [|e es IH]; intros w H; [exact H|].
  apply IH, step_synced, H.
Qed.

(** X6. From the mount on, after every event, the text stored under the key
    is the serialization of the saved collection of that moment. *)
Theorem storage_follows_routes (c : draws) (st : Storage) (w : World)
    (es : list event) :
  mount c st = Mounted w ->
  getItem storage_key (localStorage (run w es))
  = Some (JSON_stringify (routes_value (routes (ui (run w es))))).
Proof. intros H. apply (run_synced es w), (mount_synced c st w H). Qed.

Lemma getItem_setItem_other (k k' v : text) (st : Storage) :
  k' <> k -> getItem k' (setItem k v st) = getItem k' st.
Proof.
  intros H. unfold getItem, setItem, text_eqb.
  destruct (list_eq_dec N.eq_dec k' k); [contradiction | reflexivity].
Qed.

Lemma step_other_key (w : World) (e : event) (k : text) :
  k <> storage_key ->
  getItem k (localStorage (fst (step w e))) = getItem k (localStorage w).
Proof.
  intros Hk.
  destruct e as [lat lng| |c|routeId|f v|sel]; cbn [step fst localStorage];
    try reflexivity.
  - destruct (handleSaveRoute c (ui w)) as [m|s']; cbn [fst localStorage];
      [reflexivity | apply getItem_setItem_other, Hk].
  - apply getItem_setItem_other, Hk.
Qed.

(** X7. The component writes under its own key only: what the storage holds
    under any other key is, after the mount and any events, what it held
    before. *)
Theorem other_keys_untouched (c : draws) (st : Storage) (w : World)
    (es : list event) (k : text) :
  mount c st = Mounted w -> k <> storage_key ->
  getItem k (localStorage (run w es)) = getItem k st.
Proof.
  intros Hm Hk.
  assert (H0 : getItem k (localStorage w) = getItem k st).
  { unfold mount in Hm. destruct (load_effect st) as [[v|]|e]; [| |discriminate].
    - destruct (routes_of_value v) as [rs|]; [|discriminate].
      inversion Hm. cbn [localStorage]. unfold persist_effect.
      rewrite !getItem_setItem_other by exact Hk. reflexivity.
    - inversion Hm. cbn [localStorage]. unfold persist_effect.
      rewrite getItem_setItem_other by exact Hk. reflexivity. }
  rewrite <- H0. clear Hm H0. revert w.
  induction es as [|e es IH]; intros w; [reflexivity|].
  cbn [run]. rewrite IH. apply step_other_key, Hk.
Qed.

Lemma mount_of_stored (rs : list Route) (c : draws) (st : Storage) :
  forallb finite_route rs = true ->
  getItem storage_key st = Some (JSON_stringify (routes_value rs)) ->
  mount c st
  = Mounted {| ui := {| routes := rs;
                        currentRoute := currentRoute (initialState c);
                        isRecording := false;
                        selectedRoute := None |};
               localStorage := persist_effect rs (persist_effect [] st) |}.
Proof.
  intros Hfin Hget.
  pose proof (JSON_parse_stringify _ (plain_routes rs Hfin)) as Hparse.
  unfold mount, load_effect. rewrite Hget.
  destruct (stringify_routes_nonempty rs) as (u & t & E).
  rewrite E in Hparse |- *. rewrite Hparse, routes_of_routes_value.
  reflexivity.
Qed.

(** ** What the component wrote is always read *)

Lemma stringify_written_number (x : number) :
  SerializeJSONProperty (VNum x) = SerializeJSONProperty (written_number x).
Proof. destruct x as [|neg|neg|neg ds n]; reflexivity. Qed.

Lemma stringify_written_route (r : Route) :
  SerializeJSONProperty (route_value r)
  = SerializeJSONProperty (written_route r).
Proof.
  assert (H : forall w : Waypoint,
             SerializeJSONProperty (waypoint_value w)
             = SerializeJSONProperty
                 (VArr [written_number (fst w); written_number (snd w)])).
  { intros [lat lng]. unfold waypoint_value.
    cbn [SerializeJSONProperty map fst snd join].
    change (if is_finite lat then NumberToString lat else lit "null")
      with (SerializeJSONProperty (VNum lat)).
    change (if is_finite lng then NumberToString lng else lit "null")
      with (SerializeJSONProperty (VNum lng)).
    rewrite !stringify_written_number. reflexivity. }
  unfold route_value, written_route.
  cbn [SerializeJSONProperty map fst snd join]. rewrite !map_map.
  rewrite (map_ext _ _ H). reflexivity.
Qed.

Lemma stringify_written_routes (rs : list Route) :
  JSON_stringify (routes_value rs) = JSON_stringify (written_routes rs).
Proof.
  unfold JSON_stringify, routes_value, written_routes.
  cbn [SerializeJSONProperty]. rewrite !map_map.
  rewrite (map_ext _ _ stringify_written_route). reflexivity.
Qed.

Lemma plain_written_number (x : number) :
  is_double x = true -> plain (written_number x) = true.
Proof. destruct x as [|neg|neg|neg ds n]; intros H; try reflexivity. exact H. Qed.

Lemma plain_written_waypoints (ws : list Waypoint) :
  forallb (fun w => is_double (fst w) && is_double (snd w)) ws = true ->
  forallb plain
    (map (fun w => VArr [written_number (fst w); written_number (snd w)]) ws)
  = true.
Proof.
  induction ws as [|p ws IH]; [reflexivity|]. cbn [forallb map].
  intros H. apply andb_prop in H. destruct H as [Hp Hws].
  apply andb_prop in Hp. destruct Hp as [Hlat Hlng].
  rewrite (IH Hws). cbn [plain forallb].
  rewrite (plain_written_number _ Hlat), (plain_written_number _ Hlng).
  reflexivity.
Qed.

Lemma plain_written_route (r : Route) :
  double_route r = true -> plain (written_route r) = true.
Proof.
  unfold double_route. intros H. apply andb_prop in H. destruct H as [Hid Hws].
  unfold written_route. cbn [plain map fst snd forallb].
  rewrite (safe_integer_finite _ Hid), (plain_written_waypoints _ Hws).
  reflexivity.
Qed.

Lemma plain_written_routes (rs : list Route) :
  forallb double_route rs = true -> plain (written_routes rs) = true.
Proof.
  unfold written_routes. cbn [plain].
  induction rs as [|r rs IH]; [reflexivity|]. cbn [forallb map].
  intros H. apply andb_prop in H. destruct H as [Hr Hrs].
  rewrite (plain_written_route r Hr), (IH Hrs). reflexivity.
Qed.

Lemma parse_own_writes (rs : list Route) :
  forallb double_route rs = true ->
  JSON_parse (JSON_stringify (routes_value rs)) = Some (written_routes rs).
Proof.
  intros H. rewrite stringify_written_routes.
  apply JSON_parse_stringify, plain_written_routes, H.
Qed.

(** X9. The text that the second effect stores never makes the next load
    throw, whatever the coordinates: it is JSON, and it parses to the saved
    collection with [null] in place of every [NaN] and infinity and [0] in
    place of [-0]. *)
Theorem own_writes_always_parse (rs : list Route) (c : draws) (st : Storage) :
  forallb double_route rs = true ->
  JSON_parse (JSON_stringify (routes_value rs)) = Some (written_routes rs)
  /\ load_effect (persist_effect rs st) = Normal (Some (written_routes rs))
  /\ forall e, mount c (persist_effect rs st) <> Crashed e.
Proof.
  intros H. pose proof (parse_own_writes rs H) as Hparse.
  assert (Hload : load_effect (persist_effect rs st)
                  = Normal (Some (written_routes rs))).
  { unfold load_effect, persist_effect. rewrite getItem_setItem.
    destruct (stringify_routes_nonempty rs) as (u & t & E).
    rewrite E in Hparse |- *. rewrite Hparse. reflexivity. }
  split; [exact Hparse|]. split; [exact Hload|].
  intros e. unfold mount. rewrite Hload.
  destruct (routes_of_value (written_routes rs)); discriminate.
Qed.

(** ** Reloading *)

Lemma written_number_finite (x : number) :
  is_finite x = true -> written_number x = VNum (unsigned_zero x).
Proof. destruct x; try discriminate; reflexivity. Qed.

Lemma written_route_finite (r : Route) :
  finite_numbers r = true -> written_route r = route_value (reloaded_route r).
Proof.
  unfold finite_numbers. intros H. apply andb_prop in H. destruct H as [_ Hws].
  assert (E : map (fun w => VArr [written_number (fst w);
                                  written_number (snd w)]) (waypoints r)
              = map waypoint_value
                  (map (fun w => (unsigned_zero (fst w), unsigned_zero (snd w)))
                     (waypoints r))).
  { induction (waypoints r) as [|p ws IH]; [reflexivity|].
    cbn [forallb] in Hws. apply andb_prop in Hws. destruct Hws as [Hp Hws].
    apply andb_prop in Hp. destruct Hp as [Hlat Hlng].
    apply andb_prop in Hlat. destruct Hlat as [_ Hlat].
    apply andb_prop in Hlng. destruct Hlng as [_ Hlng].
    cbn [map]. rewrite (IH Hws). unfold waypoint_value at 1. cbn [fst snd].
    rewrite (written_number_finite _ Hlat), (written_number_finite _ Hlng).
    reflexivity. }
  unfold written_route, route_value, reloaded_route.
  cbn [id name color description waypoints]. rewrite E. reflexivity.
Qed.

Lemma finite_numbers_double (r : Route) :
  finite_numbers r = true -> double_route r = true.
Proof.
  unfold finite_numbers, double_route. intros H. apply andb_prop in H.
  destruct H as [Hid Hws]. rewrite Hid. cbn [andb].
  induction (waypoints r) as [|p ws IH]; [reflexivity|].
  cbn [forallb] in Hws |- *. apply andb_prop in Hws. destruct Hws as [Hp Hws].
  apply andb_prop in Hp. destruct Hp as [Hlat Hlng].
  apply andb_prop in Hlat. destruct Hlat as [Hlat _].
  apply andb_prop in Hlng. destruct Hlng as [Hlng _].
  rewrite Hlat, Hlng, (IH Hws). reflexivity.
Qed.

Lemma written_routes_finite (rs : list Route) :
  forallb finite_numbers rs = true ->
  forallb double_route rs = true
  /\ written_routes rs = routes_value (map reloaded_route rs).
Proof.
  unfold written_routes, routes_value.
  induction rs as [|r rs IH]; [split; reflexivity|].
  cbn [forallb map]. intros H. apply andb_prop in H. destruct H as [Hr Hrs].
  destruct (IH Hrs) as [Hd Hw]. rewrite (finite_numbers_double r Hr), Hd.
  split; [reflexivity|]. rewrite (written_route_finite r Hr).
  inversion Hw as [E]. rewrite E. reflexivity.
Qed.

Lemma finite_double_unsigned (x : number) :
  finite_double x = true -> unsigned_zero x = x.
Proof. destruct x as [|neg|neg|neg ds n]; try discriminate;
         [destruct neg; [discriminate | reflexivity] | reflexivity]. Qed.

Lemma reloaded_finite_route (r : Route) :
  finite_route r = true -> reloaded_route r = r.
Proof.
  unfold finite_route. intros H. apply andb_prop in H. destruct H as [_ Hws].
  unfold reloaded_route. destruct r as [i n c d ws].
  cbn [id name color description waypoints] in *. f_equal.
  induction ws as [|[lat lng] ws IH]; [reflexivity|].
  cbn [forallb fst snd] in Hws. apply andb_prop in Hws.
  destruct Hws as [Hp Hws]. apply andb_prop in Hp. destruct Hp as [Hlat Hlng].
  cbn [map fst snd].
  rewrite (finite_double_unsigned _ Hlat), (finite_double_unsigned _ Hlng),
    (IH Hws). reflexivity.
Qed.

Lemma reloaded_finite_routes (rs : list Route) :
  forallb finite_route rs = true -> map reloaded_route rs = rs.
Proof.
  induction rs as [|r rs IH]; [reflexivity|]. cbn [forallb map].
  intros H. apply andb_prop in H. destruct H as [Hr Hrs].
  rewrite (reloaded_finite_route r Hr), (IH Hrs). reflexivity.
Qed.

Lemma mount_of_stored_numbers (rs : list Route) (c : draws) (st : Storage) :
  forallb finite_numbers rs = true ->
  getItem storage_key st = Some (JSON_stringify (routes_value rs)) ->
  mount c st
  = Mounted {| ui := {| routes := map reloaded_route rs;
                        currentRoute := currentRoute (initialState c);
                        isRecording := false;
                        selectedRoute := None |};
               localStorage :=
                 persist_effect (map reloaded_route rs)
                   (persist_effect [] st) |}.
Proof.
  intros Hfin Hget. destruct (written_routes_finite rs Hfin) as [Hd Hw].
  pose proof (parse_own_writes rs Hd) as Hparse. rewrite Hw in Hparse.
  unfold mount, load_effect. rewrite Hget.
  destruct (stringify_routes_nonempty rs) as (u & t & E).
  rewrite E in Hparse |- *. rewrite Hparse, routes_of_routes_value.
  reflexivity.
Qed.

(** X8. A reload at any moment of a session brings back the saved collection
    of that moment, when its ids are safe integers and its coordinates are
    finite, with [0] where a coordinate was [-0] (so as it was, when no
    coordinate is [-0]), and nothing else: the in-progress route is a new
    one with id 1 and no waypoints, recording is off and nothing is
    selected. *)
Theorem reload_restores_saved_only (c c' : draws) (st : Storage) (w : World)
    (es : list event) :
  mount c st = Mounted w ->
  forallb finite_numbers (routes (ui (run w es))) = true ->
  exists w', mount c' (localStorage (run w es)) = Mounted w'
    /\ routes (ui w') = map reloaded_route (routes (ui (run w es)))
    /\ (forallb finite_route (routes (ui (run w es))) = true ->
        routes (ui w') = routes (ui (run w es)))
    /\ currentRoute (ui w') = currentRoute (initialState c')
    /\ id (currentRoute (ui w')) = 1
    /\ waypoints (currentRoute (ui w')) = []
    /\ isRecording (ui w') = false
    /\ selectedRoute (ui w') = None.
Proof.
  intros Hm Hfin.
  pose proof (run_synced es w (mount_synced c st w Hm)) as Hs.
  eexists. split; [apply (mount_of_stored_numbers _ c' _ Hfin Hs)|].
  cbn [ui routes currentRoute isRecording selectedRoute].
  split; [reflexivity|]. split; [apply reloaded_finite_routes|].
  repeat split.
Qed.

(** ** The events the view offers *)

Lemma offered_save (s : State) (r : draws) :
  offers (render s) (SaveClick r) ->
  isRecording s = true
  /\ (2 <= length (waypoints (currentRoute s)))%nat
  /\ exists s', handleSaveRoute r s = Saved s'.
Proof.
  cbn [offers render controls]. intros (c & Hc & Hd).
  destruct (isRecording s); [|discriminate Hc].
  inversion Hc as [E]. rewrite <- E in Hd. cbn [saveDisabled] in Hd.
  apply Nat.ltb_ge in Hd. split; [reflexivity|]. split; [exact Hd|].
  unfold handleSaveRoute.
  destruct (Nat.ltb_spec (length (waypoints (currentRoute s))) 2); [lia|].
  eexists. reflexivity.
Qed.

(** X10. The save button is rendered only while recording and is disabled
    below two waypoints, which is the check of [handleSaveRoute]: in a run
    of events fired through the view, nothing is ever alerted. *)
Theorem view_never_alerts (es : list event) : forall w : World,
  offered_run w es -> alerts w es = [].
Proof.
  induction es as [|e es IH]; intros w H; [reflexivity|].
  destruct H as [He Hes]. cbn [alerts]. rewrite (IH _ Hes), app_nil_r.
  destruct e as [lat lng| |c|routeId|f v|sel]; try reflexivity.
  destruct (offered_save (ui w) c He) as (_ & _ & s' & Hs).
  cbn [step]. rewrite Hs. reflexivity.
Qed.

Lemma offered_select (s : State) (r : Route) :
  offers (render s) (SelectClick r) -> In r (routes s).
Proof.
  cbn [offers render savedLines items]. rewrite !map_map. cbn [onPolylineClick itemRoute].
  rewrite map_id. intros [H|H]; [|exact H].
  apply in_map_iff in H. destruct H as (r' & E & Hin). inversion E. subst.
  exact Hin.
Qed.

Lemma step_selection_ok (w : World) (e : event) :
  selection_ok (ui w) -> offers (render (ui w)) e ->
  selection_ok (ui (fst (step w e))).
Proof.
  unfold selection_ok. intros H He.
  destruct e as [lat lng| |c|routeId|f v|sel]; cbn [step fst ui].
  - unfold handleAddWaypoint. destruct (isRecording (ui w)); exact H.
  - exact H.
  - unfold handleSaveRoute.
    destruct (length (waypoints (currentRoute (ui w))) <? 2)%nat;
      cbn [fst ui routes selectedRoute]; [exact H|].
    intros r Hr. apply in_or_app. left. apply H, Hr.
  - intros r Hr. discriminate Hr.
  - exact H.
  - cbn [setSelectedRoute routes selectedRoute]. intros r Hr.
    inversion Hr. subst. apply offered_select, He.
Qed.

Lemma run_selection_ok (w : World) (es : list event) :
  selection_ok (ui w) -> offered_run w es -> selection_ok (ui (run w es)).
Proof.
  revert w. induction es as [|e es IH]; intros w H Hrun; [exact H|].
  destruct Hrun as [He Hes]. cbn [run].
  apply IH; [apply step_selection_ok; assumption | exact Hes].
Qed.

(** X11. In a run of events fired through the view, the selection, when
    there is one, is always one of the saved routes: a route is selected
    from the saved collection, saving keeps it there, and deleting clears
    the selection. *)
Theorem selection_is_saved (w : World) (es : list event) :
  selection_ok (ui w) -> offered_run w es -> selection_ok (ui (run w es)).
Proof. apply run_selection_ok. Qed.

(** X12. The delete button exists only on the list items of the selected id,
    so a deletion fired through the view names an id that a saved route
    has, the one of the selection, and makes the saved collection
    shorter. *)
Theorem view_delete_hits (w : World) (routeId : Z) :
  offers (render (ui w)) (DeleteClick routeId) ->
  (exists r, In r (routes (ui w)) /\ id r = routeId)
  /\ (exists sel, selectedRoute (ui w) = Some sel /\ id sel = routeId)
  /\ (length (routes (ui (fst (step w (DeleteClick routeId)))))
      < length (routes (ui w)))%nat.
Proof.
  cbn [offers render items]. intros (it & d & Hin & Hd & Hid).
  apply in_map_iff in Hin. destruct Hin as (r & E & Hr). subst it.
  cbn [details] in Hd. unfold is_selected in Hd.
  destruct (selectedRoute (ui w)) as [sel|] eqn:Hsel; [|discriminate Hd].
  destruct (Z.eqb_spec (id sel) (id r)) as [Heq|]; [|discriminate Hd].
  inversion Hd as [E]. rewrite <- E in Hid. cbn [deleteId] in Hid.
  split; [exists r; split; assumption|].
  split; [exists sel; split; [reflexivity | congruence]|].
  cbn [step fst ui handleDeleteRoute routes]. subst routeId.
  clear - Hr. induction (routes (ui w)) as [|a l IH]; [destruct Hr|].
  cbn [filter length]. destruct Hr as [->|Hr].
  - rewrite Z.eqb_refl. cbn [negb].
    pose proof (filter_length_le (fun route => negb (id route =? id r)) l). lia.
  - specialize (IH Hr). destruct (negb (id a =? id r)); cbn [length]; lia.
Qed.

(** X13. While recording is off the view offers no way to change the
    in-progress route: a click on the map is ignored, and the inputs and the
    save button are not rendered. *)
Theorem idle_route_is_frozen (w : World) (e : event) :
  isRecording (ui w) = false -> offers (render (ui w)) e ->
  currentRoute (ui (fst (step w e))) = currentRoute (ui w).
Proof.
  intros Hidle He.
  destruct e as [lat lng| |c|routeId|f v|sel]; cbn [step fst ui]; try reflexivity.
  - unfold handleAddWaypoint. rewrite Hidle. reflexivity.
  - destruct (offered_save (ui w) c He) as (Hrec & _). congruence.
  - cbn [offers render controls] in He. rewrite Hidle in He.
    exfalso. apply He. reflexivity.
Qed.

Lemma filter_selected_unique (rs : list Route) (sel : Route) :
  NoDup (map id rs) -> In sel rs ->
  length (filter (fun r => id sel =? id r) rs) = 1%nat.
Proof.
  induction rs as [|a rs IH]; intros Hnd Hin; [destruct Hin|].
  cbn [map] in Hnd. inversion Hnd as [|x l Hnotin Hnd']; subst.
  cbn [filter]. destruct Hin as [->|Hin].
  - rewrite Z.eqb_refl. cbn [length]. f_equal.
    assert (H : filter (fun r => id sel =? id r) rs = []).
    { clear - Hnotin. induction rs as [|b rs IH]; [reflexivity|].
      cbn [filter]. destruct (Z.eqb_spec (id sel) (id b)) as [E|_].
      - exfalso. apply Hnotin. left. symmetry. exact E.
      - apply IH. intros H. apply Hnotin. right. exact H. }
    rewrite H. reflexivity.
  - destruct (Z.eqb_spec (id sel) (id a)) as [E|_].
    + exfalso. apply Hnotin. rewrite <- E. apply in_map. exact Hin.
    + apply IH; assumption.
Qed.

Lemma expanded_items (s : State) :
  length (filter expanded (items (render s)))
  = length (filter (is_selected s) (routes s)).
Proof.
  cbn [render items]. induction (routes s) as [|r rs IH]; [reflexivity|].
  cbn [map filter]. unfold expanded at 1. cbn [details].
  destruct (is_selected s r); cbn [length]; rewrite IH; reflexivity.
Qed.

(** X14. In a session that starts with no saved route and no selection and
    runs through the view, the list shows the details and the delete button
    on exactly one item when a route is selected, and on none otherwise. *)
Theorem one_item_expanded (w : World) (es : list event) :
  routes (ui w) = [] -> selectedRoute (ui w) = None -> offered_run w es ->
  length (filter expanded (items (render (ui (run w es)))))
  = match selectedRoute (ui (run w es)) with
    | Some _ => 1%nat
    | None => 0%nat
    end.
Proof.
  intros He Hnone Hrun.
  assert (Hok : ids_ok (ui (run w es))).
  { apply run_ids_ok. unfold ids_ok. rewrite He. split; constructor. }
  assert (Hsel : selection_ok (ui (run w es))).
  { apply run_selection_ok; [|exact Hrun].
    intros r Hr. rewrite Hnone in Hr. discriminate Hr. }
  rewrite expanded_items. unfold is_selected, selection_ok in *.
  destruct (selectedRoute (ui (run w es))) as [sel|].
  - apply filter_selected_unique;
      [apply StronglySorted_lt_NoDup, Hok | apply Hsel; reflexivity].
  - clear. induction (routes (ui (run w es))) as [|r rs IH];
      [reflexivity | exact IH].
Qed.

Lemma marker_views_positions (ws : list Waypoint) : forall index : nat,
  map position (marker_views index ws) = ws.
Proof.
  induction ws as [|p ws IH]; intros index; [reflexivity|].
  cbn [marker_views map position]. rewrite IH. reflexivity.
Qed.

Lemma marker_views_popup (ws : list Waypoint) : forall (index i : nat)
    (m : MarkerView),
  nth_error (marker_views index ws) i = Some m ->
  popup m = lit "Waypoint "
              ++ NumberToString (number_of_Z (Z.of_nat (index + i) + 1)).
Proof.
  induction ws as [|p ws IH]; intros index i m H.
  - destruct i; discriminate H.
  - destruct i as [|i]; cbn [marker_views nth_error] in H.
    + inversion H. cbn [popup]. rewrite Nat.add_0_r. reflexivity.
    + rewrite (IH (S index) i m H). do 4 f_equal. lia.
Qed.

(** X15. While recording, the view shows one marker for each waypoint of the
    in-progress route, at the waypoint and in order, the [i]-th one (from 0)
    labelled [Waypoint i+1]; while idle it shows no marker.  The in-progress
    line is drawn when there is at least one waypoint, dashed while
    recording. *)
Theorem markers_follow_waypoints (s : State) :
  map position (markers (render s))
  = (if isRecording s then waypoints (currentRoute s) else [])
  /\ (forall i m, nth_error (markers (render s)) i = Some m ->
        popup m = lit "Waypoint "
                    ++ NumberToString (number_of_Z (Z.of_nat i + 1)))
  /\ (currentLine (render s) = None <-> waypoints (currentRoute s) = [])
  /\ (forall l, currentLine (render s) = Some l ->
        positions l = waypoints (currentRoute s)
        /\ dashArray l = Some (if isRecording s then lit "5, 10" else [])).
Proof.
  cbn [render markers currentLine]. split; [|split; [|split]].
  - destruct (isRecording s); [apply marker_views_positions | reflexivity].
  - intros i m H. destruct (isRecording s).
    + apply (marker_views_popup _ 0 i m H).
    + destruct i; discriminate H.
  - destruct (waypoints (currentRoute s)); cbn [length Nat.ltb Nat.leb];
      split; intros H; try reflexivity; discriminate H.
  - intros l H.
    destruct (0 <? length (waypoints (currentRoute s)))%nat; [|discriminate H].
    inversion H. split; reflexivity.
Qed.

(** ** Recording in several goes *)

Lemma run_app (a b : list event) : forall w : World,
  run w (a ++ b) = run (run w a) b.
Proof. induction a as [|e a IH]; intros w; [reflexivity | apply IH]. Qed.

Lemma clicks_idle (ws : list Waypoint) (w : World) :
  isRecording (ui w) = false -> run w (clicks ws) = w.
Proof.
  intros H. induction ws as [|p ws IH]; [reflexivity|].
  cbn [clicks map run step fst]. unfold handleAddWaypoint. rewrite H.
  destruct w as [s st]. exact IH.
Qed.

Lemma clicks_keep_recording (ws : list Waypoint) : forall w : World,
  isRecording (ui (run w (clicks ws))) = isRecording (ui w)
  /\ id (currentRoute (ui (run w (clicks ws)))) = id (currentRoute (ui w)).
Proof.
  induction ws as [|p ws IH]; intros w; [split; reflexivity|].
  cbn [clicks map run]. destruct (IH (fst (step w (MapClick (fst p) (snd p)))))
    as [H1 H2]. unfold clicks in *. rewrite H1, H2.
  cbn [step fst ui]. unfold handleAddWaypoint.
  destruct (isRecording (ui w)) eqn:E; cbn [isRecording currentRoute id];
    rewrite ?E; split; reflexivity.
Qed.

Lemma toggle_step (w : World) :
  isRecording (ui (fst (step w ToggleClick))) = negb (isRecording (ui w))
  /\ currentRoute (ui (fst (step w ToggleClick))) = currentRoute (ui w)
  /\ routes (ui (fst (step w ToggleClick))) = routes (ui w).
Proof. repeat split. Qed.

(** X16. Stopping and resuming keeps what was recorded: starting idle, the
    clicks of a first recording, the clicks made while stopped and the
    clicks of a second recording leave the in-progress route with the
    waypoints of the two recordings, in order, and without those clicked
    while stopped; the recording is still on and nothing was saved. *)
Theorem stop_and_resume (w : World) (first ignored second : list Waypoint) :
  isRecording (ui w) = false ->
  let w' := run w (ToggleClick :: clicks first
                     ++ ToggleClick :: clicks ignored
                     ++ ToggleClick :: clicks second) in
  waypoints (currentRoute (ui w'))
  = waypoints (currentRoute (ui w)) ++ first ++ second
  /\ routes (ui w') = routes (ui w)
  /\ isRecording (ui w') = true.
Proof.
  intros Hidle. cbv zeta.
  change (run w (ToggleClick :: ?es)) with (run (fst (step w ToggleClick)) es).
  destruct (toggle_step w) as (T1 & C1 & R1). rewrite Hidle in T1.
  remember (fst (step w ToggleClick)) as w1 eqn:E1. clear E1.
  rewrite run_app.
  destruct (clicks_recording first w1 T1) as [R2 W2].
  destruct (clicks_keep_recording first w1) as [T2 _]. rewrite T1 in T2.
  remember (run w1 (clicks first)) as w2 eqn:E2. clear E2.
  change (run w2 (ToggleClick :: ?es)) with (run (fst (step w2 ToggleClick)) es).
  destruct (toggle_step w2) as (T3 & C3 & R3). rewrite T2 in T3.
  remember (fst (step w2 ToggleClick)) as w3 eqn:E3. clear E3.
  rewrite run_app, (clicks_idle ignored w3 T3).
  change (run w3 (ToggleClick :: ?es)) with (run (fst (step w3 ToggleClick)) es).
  destruct (toggle_step w3) as (T4 & C4 & R4). rewrite T3 in T4.
  remember (fst (step w3 ToggleClick)) as w4 eqn:E4. clear E4.
  destruct (clicks_recording second w4 T4) as [R5 W5].
  destruct (clicks_keep_recording second w4) as [T5 _].
  rewrite W5, R5, T5, T4, C4, R4, C3, R3, W2, R2, C1, R1, <- app_assoc.
  repeat split.
Qed.

(** ** Ids after a reload *)

Lemma mount_initial (c : draws) (st : Storage) (w : World) :
  mount c st = Mounted w ->
  currentRoute (ui w) = currentRoute (initialState c)
  /\ isRecording (ui w) = false.
Proof.
  unfold mount. destruct (load_effect st) as [[v|]|e]; [| |discriminate].
  - destruct (routes_of_value v) as [rs|]; [|discriminate].
    intros H. inversion H. split; reflexivity.
  - intros H. inversion H. split; reflexivity.
Qed.

Lemma click_recording_route (w : World) (p : Waypoint) :
  isRecording (ui w) = true ->
  isRecording (ui (fst (step w (MapClick (fst p) (snd p))))) = true
  /\ currentRoute (ui (fst (step w (MapClick (fst p) (snd p)))))
     = {| id := id (currentRoute (ui w)); name := name (currentRoute (ui w));
          color := color (currentRoute (ui w));
          description := description (currentRoute (ui w));
          waypoints := waypoints (currentRoute (ui w)) ++ [p] |}.
Proof.
  intros H. cbn [step fst ui]. unfold handleAddWaypoint. rewrite H.
  cbn [isRecording currentRoute]. destruct p. split; reflexivity.
Qed.

Lemma clicks_recording_route (ws : list Waypoint) : forall w : World,
  isRecording (ui w) = true ->
  currentRoute (ui (run w (clicks ws)))
  = {| id := id (currentRoute (ui w)); name := name (currentRoute (ui w));
       color := color (currentRoute (ui w));
       description := description (currentRoute (ui w));
       waypoints := waypoints (currentRoute (ui w)) ++ ws |}.
Proof.
  induction ws as [|p ws IH]; intros w H.
  - cbn [clicks map run]. rewrite app_nil_r. destruct (currentRoute (ui w)).
    reflexivity.
  - destruct (click_recording_route w p H) as [Hrec Hcur].
    change (run w (clicks (p :: ws)))
      with (run (fst (step w (MapClick (fst p) (snd p)))) (clicks ws)).
    rewrite (IH _ Hrec), Hcur.
    cbn [id name color description waypoints]. rewrite <- app_assoc.
    reflexivity.
Qed.

Lemma NoDup_snoc_not_in {A} (l : list A) (a : A) :
  NoDup (l ++ [a]) -> ~ In a l.
Proof.
  induction l as [|b l IH]; intros H Hin; [destruct Hin|].
  cbn [app] in H. inversion H as [|x y Hnotin Hnd]; subst.
  destruct Hin as [->|Hin].
  - apply Hnotin. apply in_or_app. right. left. reflexivity.
  - apply (IH Hnd Hin).
Qed.

(** X17. The in-progress id starts at 1 again on every mount, whatever ids
    the loaded routes carry.  When a loaded route has id 1, the first route
    saved in the new session gets the same id; the ids of the saved
    collection are then no longer distinct, and deleting id 1 removes both
    routes. *)
Theorem ids_restart_on_reload (c c' : draws) (st : Storage) (w : World)
    (r : Route) (ws : list Waypoint) :
  mount c st = Mounted w -> In r (routes (ui w)) -> id r = 1 ->
  (2 <= length ws)%nat ->
  let w1 := run w (ToggleClick :: clicks ws ++ [SaveClick c']) in
  let s2 := ui (fst (step w1 (DeleteClick 1))) in
  routes (ui w1) = routes (ui w) ++ [first_route c ws]
  /\ ~ NoDup (map id (routes (ui w1)))
  /\ ~ In r (routes s2)
  /\ ~ In (first_route c ws) (routes s2).
Proof.
  intros Hm Hin Hid Hlen. destruct (mount_initial c st w Hm) as [Hcur Hidle].
  cbv zeta.
  change (run w (ToggleClick :: ?es)) with (run (fst (step w ToggleClick)) es).
  set (w0 := fst (step w ToggleClick)).
  assert (H0 : isRecording (ui w0) = true)
    by (subst w0; cbn; rewrite Hidle; reflexivity).
  rewrite run_app. set (w1 := run w0 (clicks ws)).
  pose proof (clicks_recording_route ws w0 H0) as Hroute.
  destruct (clicks_recording ws w0 H0) as [Hroutes _].
  fold w1 in Hroute, Hroutes.
  assert (Hsaved : routes (ui (run w1 [SaveClick c']))
                   = routes (ui w) ++ [first_route c ws]).
  { cbn [run step]. unfold handleSaveRoute. rewrite Hroute.
    cbn [waypoints]. subst w0. cbn [step fst ui toggleRecording currentRoute] in *.
    rewrite Hcur. cbn [initialState currentRoute waypoints app].
    destruct (Nat.ltb_spec (length ws) 2); [lia|].
    cbn [fst ui routes]. rewrite Hroutes. reflexivity. }
  rewrite Hsaved. split; [reflexivity|]. split; [|split].
  - rewrite map_app. intros Hnd. apply (NoDup_snoc_not_in _ _ Hnd).
    cbn [first_route id]. rewrite <- Hid. apply in_map. exact Hin.
  - cbn [step fst ui handleDeleteRoute routes]. rewrite filter_In.
    intros [_ H]. rewrite Hid in H. discriminate H.
  - cbn [step fst ui handleDeleteRoute routes]. rewrite filter_In.
    intros [_ H]. discriminate H.
Qed.

(* ================================================================== *)
(** * The further properties at concrete inputs *)

Lemma view_session_offered : offered_run fresh_world view_session.
Proof.
  cbn [view_session clicks map app offered_run offers]. repeat split.
  - eexists. split; reflexivity.
  - left. left. reflexivity.
Qed.

Lemma delete_removes_the_id_witness :
  (In sample_route (routes (ui selected_world)) /\ id sample_route <> 7)
  /\ In sample_route (routes (handleDeleteRoute 7 (ui selected_world))).
Proof.
  assert (H : In sample_route (routes (ui selected_world))
              /\ id sample_route <> 7)
    by (split; [left; reflexivity | discriminate]).
  split; [exact H|].
  exact (proj2 (proj1 (delete_removes_the_id (ui selected_world) 7 7)
                  sample_route) H).
Defined.

Lemma saved_ids_unique_witness :
  routes (ui fresh_world) = []
  /\ NoDup (map id (routes (ui (run fresh_world sample_session)))).
Proof.
  assert (H : routes (ui fresh_world) = []) by reflexivity.
  split; [exact H | exact (proj2 (saved_ids_unique fresh_world sample_session H))].
Defined.

Lemma delete_removes_one_witness :
  routes (ui fresh_world) = []
  /\ In sample_route (routes (ui (run fresh_world view_session)))
  /\ S (length (routes (ui (fst (step (run fresh_world view_session)
                                      (DeleteClick (id sample_route)))))))
     = length (routes (ui (run fresh_world view_session))).
Proof.
  assert (H : routes (ui fresh_world) = []) by reflexivity.
  assert (Hin : In sample_route (routes (ui (run fresh_world view_session))))
    by (left; reflexivity).
  split; [exact H|]. split; [exact Hin|].
  exact (proj1 (delete_removes_one fresh_world view_session sample_route H Hin)).
Defined.

Lemma storage_follows_routes_witness :
  mount sample_draws empty_storage = Mounted fresh_world
  /\ getItem storage_key (localStorage (run fresh_world sample_session))
     = Some (JSON_stringify
               (routes_value (routes (ui (run fresh_world sample_session))))).
Proof.
  assert (H : mount sample_draws empty_storage = Mounted fresh_world)
    by reflexivity.
  split; [exact H|].
  exact (storage_follows_routes sample_draws empty_storage fresh_world
           sample_session H).
Defined.

Lemma other_keys_untouched_witness :
  mount sample_draws empty_storage = Mounted fresh_world
  /\ lit "theme" <> storage_key
  /\ getItem (lit "theme") (localStorage (run fresh_world sample_session))
     = getItem (lit "theme") empty_storage.
Proof.
  assert (H : mount sample_draws empty_storage = Mounted fresh_world)
    by reflexivity.
  assert (Hk : lit "theme" <> storage_key) by (vm_compute; discriminate).
  split; [exact H|]. split; [exact Hk|].
  exact (other_keys_untouched sample_draws empty_storage fresh_world
           sample_session (lit "theme") H Hk).
Defined.

Lemma reload_restores_saved_only_witness :
  mount sample_draws empty_storage = Mounted fresh_world
  /\ forallb finite_numbers (routes (ui (run fresh_world zero_session))) = true
  /\ exists w', mount sample_draws (localStorage (run fresh_world zero_session))
                = Mounted w'
                /\ routes (ui w')
                   = map reloaded_route
                       (routes (ui (run fresh_world zero_session))).
Proof.
  assert (H : mount sample_draws empty_storage = Mounted fresh_world)
    by reflexivity.
  assert (Hfin : forallb finite_numbers
                   (routes (ui (run fresh_world zero_session))) = true)
    by (vm_compute; reflexivity).
  split; [exact H|]. split; [exact Hfin|].
  destruct (reload_restores_saved_only sample_draws sample_draws empty_storage
              fresh_world zero_session H Hfin) as (w' & Hm & Hr & _).
  exists w'. split; assumption.
Defined.

(** The reload of [zero_session]: the latitude [-0] comes back as [0]. *)
Example reload_of_negative_zero :
  map waypoints (routes (ui (run fresh_world zero_session)))
  = [[(Zero true, Zero false); click_a]]
  /\ map waypoints
       (map reloaded_route (routes (ui (run fresh_world zero_session))))
     = [[(Zero false, Zero false); click_a]].
Proof. split; reflexivity. Qed.

Lemma own_writes_always_parse_witness :
  forallb double_route [infinite_route] = true
  /\ JSON_parse (JSON_stringify (routes_value [infinite_route]))
     = Some (written_routes [infinite_route]).
Proof.
  assert (H : forallb double_route [infinite_route] = true)
    by (vm_compute; reflexivity).
  split; [exact H|].
  exact (proj1 (own_writes_always_parse [infinite_route] sample_draws
                  empty_storage H)).
Defined.

Lemma view_never_alerts_witness :
  offered_run fresh_world view_session
  /\ alerts fresh_world view_session = [].
Proof.
  split; [exact view_session_offered|].
  exact (view_never_alerts view_session fresh_world view_session_offered).
Defined.

Lemma selection_is_saved_witness :
  selection_ok (ui fresh_world) /\ offered_run fresh_world view_session
  /\ selection_ok (ui (run fresh_world view_session)).
Proof.
  assert (H : selection_ok (ui fresh_world)) by (intros r Hr; discriminate Hr).
  split; [exact H|]. split; [exact view_session_offered|].
  exact (selection_is_saved fresh_world view_session H view_session_offered).
Defined.

Lemma selected_world_offers_delete :
  offers (render (ui selected_world)) (DeleteClick 1).
Proof.
  cbn [offers]. eexists. eexists. split; [left; reflexivity|].
  split; reflexivity.
Qed.

Lemma view_delete_hits_witness :
  offers (render (ui selected_world)) (DeleteClick 1)
  /\ (length (routes (ui (fst (step selected_world (DeleteClick 1)))))
      < length (routes (ui selected_world)))%nat.
Proof.
  split; [exact selected_world_offers_delete|].
  exact (proj2 (proj2 (view_delete_hits selected_world 1
                         selected_world_offers_delete))).
Defined.

Lemma idle_route_is_frozen_witness :
  isRecording (ui fresh_world) = false
  /\ offers (render (ui fresh_world)) (MapClick (fst click_a) (snd click_a))
  /\ currentRoute (ui (fst (step fresh_world
                              (MapClick (fst click_a) (snd click_a)))))
     = currentRoute (ui fresh_world).
Proof.
  assert (H : isRecording (ui fresh_world) = false) by reflexivity.
  assert (Ho : offers (render (ui fresh_world))
                 (MapClick (fst click_a) (snd click_a))) by exact I.
  split; [exact H|]. split; [exact Ho|].
  exact (idle_route_is_frozen fresh_world _ H Ho).
Defined.

Lemma one_item_expanded_witness :
  routes (ui fresh_world) = [] /\ selectedRoute (ui fresh_world) = None
  /\ offered_run fresh_world view_session
  /\ length (filter expanded
               (items (render (ui (run fresh_world view_session))))) = 1%nat.
Proof.
  assert (H : routes (ui fresh_world) = []) by reflexivity.
  assert (Hn : selectedRoute (ui fresh_world) = None) by reflexivity.
  split; [exact H|]. split; [exact Hn|]. split; [exact view_session_offered|].
  exact (one_item_expanded fresh_world view_session H Hn view_session_offered).
Defined.

Lemma markers_follow_waypoints_witness :
  nth_error (markers (render (ui recorded_world))) 1
  = Some {| position := click_b; popup := lit "Waypoint 2" |}
  /\ popup {| position := click_b; popup := lit "Waypoint 2" |}
     = lit "Waypoint " ++ NumberToString (number_of_Z (Z.of_nat 1 + 1)).
Proof.
  assert (H : nth_error (markers (render (ui recorded_world))) 1
              = Some {| position := click_b; popup := lit "Waypoint 2" |})
    by (vm_compute; reflexivity).
  split; [exact H|].
  exact (proj1 (proj2 (markers_follow_waypoints (ui recorded_world))) 1%nat
           {| position := click_b; popup := lit "Waypoint 2" |} H).
Defined.

Lemma stop_and_resume_witness :
  isRecording (ui fresh_world) = false
  /\ waypoints (currentRoute (ui (run fresh_world
        (ToggleClick :: clicks [click_a]
           ++ ToggleClick :: clicks [click_b; click_b]
           ++ ToggleClick :: clicks [click_b]))))
     = waypoints (currentRoute (ui fresh_world)) ++ [click_a] ++ [click_b].
Proof.
  assert (H : isRecording (ui fresh_world) = false) by reflexivity.
  split; [exact H|].
  exact (proj1 (stop_and_resume fresh_world [click_a] [click_b; click_b]
                  [click_b] H)).
Defined.

Lemma ids_restart_on_reload_witness :
  mount sample_draws sample_storage = Mounted reloaded_world
  /\ In sample_route (routes (ui reloaded_world)) /\ id sample_route = 1
  /\ (2 <= length [click_b; click_a])%nat
  /\ ~ NoDup (map id (routes (ui (run reloaded_world
                 (ToggleClick :: clicks [click_b; click_a]
                    ++ [SaveClick sample_draws]))))).
Proof.
  assert (Hm : mount sample_draws sample_storage = Mounted reloaded_world)
    by (vm_compute; reflexivity).
  assert (Hin : In sample_route (routes (ui reloaded_world)))
    by (left; reflexivity).
  assert (Hid : id sample_route = 1) by reflexivity.
  assert (Hlen : (2 <= length [click_b; click_a])%nat) by (simpl; lia).
  split; [exact Hm|]. split; [exact Hin|]. split; [exact Hid|].
  split; [exact Hlen|].
  exact (proj1 (proj2 (ids_restart_on_reload sample_draws sample_draws
                         sample_storage reloaded_world sample_route
                         [click_b; click_a] Hm Hin Hid Hlen))).
Defined.
